(** * RAGEngine: sentence-window chunking and similarity search

    A shallow embedding of [backend/rag_engine.py].  The engine object is a
    record that every method receives and returns; the libraries the engine
    calls (NLTK's sentence tokenizer, the embedding model, scikit-learn's
    cosine similarity and NumPy's argsort) are an interface, [Externals],
    whose contracts are stated apart in [ExternalsLaws].  Logging is left
    out. *)

From Stdlib Require Import String Ascii.
From Stdlib Require Import List ZArith NArith QArith Bool Lia.
From Stdlib Require Import Permutation Sorted DecimalString Qround Qpower.
Import ListNotations.

Set Implicit Arguments.
Local Open Scope Z_scope.

(** ** Python values *)

Module Py.

(** A Python [str] is a sequence of Unicode code points. *)
Definition str := list N.

(** A literal, for examples. *)
Definition lit (s : string) : str := map N_of_ascii (list_ascii_of_string s).

Local Open Scope N_scope.

(** [str.isspace] on one code point (the Unicode whitespace set CPython uses
    for [str.split()] and [str.strip()]). *)
Definition isspace (c : N) : bool :=
  ((9 <=? c) && (c <=? 13)) || ((28 <=? c) && (c <=? 32))
  || (c =? 133) || (c =? 160) || (c =? 5760)
  || ((8192 <=? c) && (c <=? 8202))
  || (c =? 8232) || (c =? 8233) || (c =? 8239) || (c =? 8287) || (c =? 12288).

Local Close Scope N_scope.

(** [s.split()]: the maximal runs of non-whitespace, in order.  [w] is the
    word being read, most recent code point first. *)
Fixpoint split_from (w : str) (s : str) : list str :=
  match s with
  | [] => match w with [] => [] | _ :: _ => [rev w] end
  | c :: s' =>
      if isspace c
      then match w with
           | [] => split_from [] s'
           | _ :: _ => rev w :: split_from [] s'
           end
      else split_from (c :: w) s'
  end.

Definition split (s : str) : list str := split_from [] s.

Fixpoint lstrip (s : str) : str :=
  match s with
  | [] => []
  | c :: s' => if isspace c then lstrip s' else s
  end.

(** [s.strip()] *)
Definition strip (s : str) : str := rev (lstrip (rev (lstrip s))).

(** [" ".join(l)] *)
Fixpoint join (l : list str) : str :=
  match l with
  | [] => []
  | [s] => s
  | s :: rest => s ++ 32%N :: join rest
  end.

(** [l[i:]] for a Python list and an integer [i]: a negative [i] counts from
    the end, and an index out of range is clipped. *)
Definition slice_from (A : Type) (i : Z) (l : list A) : list A :=
  let n := Z.of_nat (length l) in
  let start := if i <? 0 then Z.max (n + i) 0 else Z.min i n in
  skipn (Z.to_nat start) l.

(** Exceptions raised by indexing. *)
Inductive exn := IndexError.

Inductive result (A : Type) :=
| Ok (a : A)
| Raise (e : exn).
Arguments Ok {A} a.
Arguments Raise {A} e.

(** [l[i]] for a non-negative index. *)
Definition getitem (A : Type) (l : list A) (i : nat) : result A :=
  match nth_error l i with
  | Some a => Ok a
  | None => Raise IndexError
  end.

End Py.

Import Py.

(** ** Single-precision scores

    The embedding model returns float32 vectors and [cosine_similarity]
    keeps that precision, so the similarity scores are float32 values.
    When NumPy (from version 2 on) compares such a score with a Python
    float it first rounds the Python float to float32; [float(...)] then
    widens a score exactly.  Numbers are rationals here: a float is its
    exact value. *)

Module Float32.

(** Two to the power [z]. *)
Definition pow2 (z : Z) : Q := Qpower 2 z.

(** The binade of a positive rational: the [e] with [2^e <= a < 2^(e+1)]. *)
Definition ilog2 (a : Q) : Z :=
  let e := Z.log2 (Qnum a) - Z.log2 (Zpos (Qden a)) in
  if Qle_bool (pow2 e) a then e else e - 1.

(** The nearest integer, a tie going to the even one. *)
Definition round_half_even (x : Q) : Z :=
  let f := Qfloor x in
  match (x - inject_Z f ?= 1 # 2)%Q with
  | Lt => f
  | Gt => f + 1
  | Eq => if Z.even f then f else f + 1
  end.

(** The nearest float32 to a positive rational: 24 significant bits, and
    the fixed spacing [2^-149] below [2^-126]. *)
Definition round_pos (a : Q) : Q :=
  let u := Z.max (ilog2 a) (-126) - 23 in
  (inject_Z (round_half_even (a / pow2 u)) * pow2 u)%Q.

(** [np.float32(x)] for a finite Python float [x].  Past the largest finite
    float32 the cast gives an infinity; the value kept here is at least
    [2^128] in magnitude and compares with every finite score as the
    infinity does. *)
Definition round (q : Q) : Q :=
  match (q ?= 0)%Q with
  | Eq => 0%Q
  | Gt => round_pos q
  | Lt => (- round_pos (- q))%Q
  end.

End Float32.

(** ** Data *)

(** The dict appended to [self.chunks]. *)
Record Chunk := {
  text : str;
  position : nat;
  word_count : nat
}.

(** The dict appended to [results] in [search].  [relevance] is a Python
    float, here its exact value as a rational; NaN and the infinities are
    outside the model. *)
Record SearchResult := {
  r_text : str;
  relevance : Q;
  r_position : nat;
  r_word_count : nat
}.

(** The dict returned by [get_document_summary]. *)
Record Summary := {
  chunks_count : nat;
  total_words : nat;
  indexed : bool
}.

(** A document's metadata dict. *)
Definition Metadata := list (str * str).

(** The [content] argument of [index_document]; a key may be absent. *)
Record Content := {
  full_text : option str;
  doc_metadata : option Metadata
}.

(** ** The libraries the engine calls *)

Class Externals := {
  (** an embedding vector *)
  vec : Type;
  (** [nltk.tokenize.sent_tokenize] *)
  sent_tokenize : str -> list str;
  (** [SentenceTransformer.encode] on a list of texts *)
  encode : list str -> list vec;
  (** [sklearn.metrics.pairwise.cosine_similarity]: one row per vector of
      the first argument, one column per vector of the second *)
  cosine_similarity : list vec -> list vec -> list (list Q);
  (** [numpy.argsort] *)
  argsort : list Q -> list nat
}.

(** The value found at an index, for stating that a list of indices sorts. *)
Definition at_index (l : list Q) (i : nat) : Q := nth i l 0%Q.

(** What the engine relies on: [encode] returns one vector per text,
    [cosine_similarity] a matrix of the right shape, and [argsort] the
    indices of its argument in an order that sorts it ascending.  Nothing
    is assumed about the order of equal values, nor about the range of the
    similarities. *)
Class ExternalsLaws (E : Externals) : Prop := {
  encode_length : forall texts, length (encode texts) = length texts;
  cosine_rows : forall X Y, length (cosine_similarity X Y) = length X;
  cosine_cols : forall X Y row,
      In row (cosine_similarity X Y) -> length row = length Y;
  argsort_perm : forall a, Permutation (argsort a) (seq 0 (length a));
  argsort_sorted : forall a,
      StronglySorted Qle (map (at_index a) (argsort a))
}.

(** The similarities are float32 values. *)
Class Float32Scores (E : Externals) : Prop := {
  cosine_float32 : forall X Y row s,
      In row (cosine_similarity X Y) -> In s row ->
      (Float32.round s == s)%Q
}.

(** ** The engine *)

Record RAGEngine {E : Externals} := {
  chunks : list Chunk;
  chunk_embeddings : option (list vec);
  metadata : Metadata
}.

Section Engine.

Context {E : Externals}.

(** The state [__init__] leaves. *)
Definition init : RAGEngine :=
  {| chunks := []; chunk_embeddings := None; metadata := [] |}.

(** The dict built from the sentence buffer when a chunk is closed. *)
Definition make_chunk (self_chunks : list Chunk) (current_chunk : list str)
  : Chunk :=
  let chunk_text := join current_chunk in
  {| text := chunk_text;
     position := length self_chunks;
     word_count := length (split chunk_text) |}.

(** [current_chunk[-(overlap // 10):] if overlap > 0 else []] *)
Definition overlap_sentences (overlap : Z) (current_chunk : list str)
  : list str :=
  if 0 <? overlap then slice_from (- (overlap / 10)) current_chunk else [].

(** [sum(len(s.split()) for s in l)] *)
Definition sum_words (l : list str) : nat :=
  fold_right (fun s acc => (length (split s) + acc)%nat) 0%nat l.

(** What the [for sentence in sentences] loop of [index_document] reads and
    writes. *)
Record loop_state := {
  self_chunks : list Chunk;
  current_chunk : list str;
  current_length : nat
}.

(** [current_length + sentence_length > chunk_size and current_chunk] *)
Definition must_close (chunk_size : Z) (st : loop_state) (sentence : str)
  : bool :=
  (chunk_size <? Z.of_nat (current_length st + length (split sentence)))
  && match current_chunk st with [] => false | _ :: _ => true end.

Definition loop_body (chunk_size overlap : Z) (st : loop_state)
    (sentence : str) : loop_state :=
  let sentence_length := length (split sentence) in
  let st :=
    if must_close chunk_size st sentence
    then
      let tail := overlap_sentences overlap (current_chunk st) in
      {| self_chunks :=
           self_chunks st ++ [make_chunk (self_chunks st) (current_chunk st)];
         current_chunk := tail;
         current_length := sum_words tail |}
    else st in
  {| self_chunks := self_chunks st;
     current_chunk := current_chunk st ++ [sentence];
     current_length := (current_length st + sentence_length)%nat |}.

(** The loop's variables before the first sentence ([self.chunks] has just
    been emptied). *)
Definition loop_start : loop_state :=
  {| self_chunks := []; current_chunk := []; current_length := 0%nat |}.

(** The loop and the closing of the last buffer: the chunks of a sentence
    sequence. *)
Definition chunk_sentences (chunk_size overlap : Z) (sentences : list str)
  : list Chunk :=
  let st := fold_left (loop_body chunk_size overlap) sentences loop_start in
  match current_chunk st with
  | [] => self_chunks st
  | _ :: _ => self_chunks st ++ [make_chunk (self_chunks st) (current_chunk st)]
  end.

(** The sentence buffers behind the chunks: the same loop, recording the
    buffer each time one is closed.  The chunk dicts keep only the joined
    text, so what the code says about a chunk's sentences is said about
    these. *)
Definition buffers_body (chunk_size overlap : Z)
    (g : loop_state * list (list str)) (sentence : str)
  : loop_state * list (list str) :=
  (loop_body chunk_size overlap (fst g) sentence,
   if must_close chunk_size (fst g) sentence
   then snd g ++ [current_chunk (fst g)]
   else snd g).

Definition chunk_buffers (chunk_size overlap : Z) (sentences : list str)
  : list (list str) :=
  let g := fold_left (buffers_body chunk_size overlap) sentences
             (loop_start, []) in
  match current_chunk (fst g) with
  | [] => snd g
  | _ :: _ => snd g ++ [current_chunk (fst g)]
  end.

(** [content.get("full_text", "")] *)
Definition get_full_text (content : Content) : str :=
  match full_text content with Some t => t | None => [] end.

(** [content.get("metadata", {})] *)
Definition get_metadata (content : Content) : Metadata :=
  match doc_metadata content with Some m => m | None => [] end.

(** [not text or len(text.strip()) < 10] *)
Definition too_short (t : str) : bool :=
  match t with
  | [] => true
  | _ :: _ => (length (strip t) <? 10)%nat
  end.

Definition index_document (content : Content) (chunk_size overlap : Z)
    (self : RAGEngine) : bool * RAGEngine :=
  let self := {| chunks := [];
                 chunk_embeddings := chunk_embeddings self;
                 metadata := metadata self |} in
  let t := get_full_text content in
  if too_short t then (false, self)
  else
    let sentences := sent_tokenize t in
    let cs := chunk_sentences chunk_size overlap sentences in
    let self := {| chunks := cs;
                   chunk_embeddings := chunk_embeddings self;
                   metadata := metadata self |} in
    match cs with
    | _ :: _ =>
        let texts := map text cs in
        (true, {| chunks := cs;
                  chunk_embeddings := Some (encode texts);
                  metadata := get_metadata content |})
    | [] => (false, self)
    end.

(** [a < b] on similarity scores. *)
Definition Qltb (a b : Q) : bool := negb (Qle_bool b a).

(** The dict [search] builds for the chunk at an index. *)
Definition result_of (s : Q) (c : Chunk) : SearchResult :=
  {| r_text := text c;
     relevance := s;
     r_position := position c;
     r_word_count := word_count c |}.

(** The [for idx in top_indices] loop of [search]; [results] is the list
    built so far.  [similarities[idx] < min_similarity] compares a float32
    with a Python float: the test is made against the Python float rounded
    to float32.  [float(similarities[idx])] is the score itself. *)
Fixpoint search_loop (similarities : list Q) (cs : list Chunk)
    (top_k : Z) (min_similarity : Q)
    (top_indices : list nat) (results : list SearchResult)
  : result (list SearchResult) :=
  match top_indices with
  | [] => Ok results
  | idx :: rest =>
      match getitem similarities idx with
      | Raise e => Raise e
      | Ok s =>
          if Qltb s (Float32.round min_similarity) then Ok results
          else
            match getitem cs idx with
            | Raise e => Raise e
            | Ok c =>
                let results := results ++ [result_of s c] in
                if top_k <=? Z.of_nat (length results) then Ok results
                else search_loop similarities cs top_k min_similarity
                       rest results
            end
      end
  end.

(** [cosine_similarity([encode([query])[0]], chunk_embeddings)[0]] *)
Definition query_similarities (query : str) (embs : list vec)
  : result (list Q) :=
  match getitem (encode [query]) 0 with
  | Raise e => Raise e
  | Ok query_embedding =>
      getitem (cosine_similarity [query_embedding] embs) 0
  end.

Definition search (query : str) (top_k : Z) (min_similarity : Q)
    (self : RAGEngine) : result (list SearchResult) * RAGEngine :=
  match chunk_embeddings self, chunks self with
  | None, _ | _, [] => (Ok [], self)
  | Some embs, _ :: _ =>
      match query_similarities query embs with
      | Raise e => (Raise e, self)
      | Ok similarities =>
          let top_indices := rev (argsort similarities) in
          (search_loop similarities (chunks self) top_k min_similarity
             top_indices [], self)
      end
  end.

Definition get_document_summary (self : RAGEngine) : Summary * RAGEngine :=
  ({| chunks_count := length (chunks self);
      total_words :=
        match chunks self with
        | [] => 0%nat
        | _ :: _ => fold_right (fun c acc => (word_count c + acc)%nat) 0%nat
                      (chunks self)
        end;
      indexed := match chunk_embeddings self with
                 | Some _ => true
                 | None => false
                 end |}, self).

End Engine.

(** ** Context assembly *)

(** [str(n)] for a non-negative integer. *)
Definition str_of_nat (n : nat) : str :=
  lit (NilEmpty.string_of_uint (Nat.to_uint n)).

(** [" ФРАГМЕНТЫ ДОКУМЕНТА:\n\n"] *)
Definition header : str :=
  [32; 1060; 1056; 1040; 1043; 1052; 1045; 1053; 1058; 1067; 32; 1044; 1054;
   1050; 1059; 1052; 1045; 1053; 1058; 1040; 58; 10; 10]%N.

(** ["-" * 50] *)
Definition rule : str := repeat 45%N 50.

(** ["Фрагмент "] *)
Definition label_fragment : str :=
  [1060; 1088; 1072; 1075; 1084; 1077; 1085; 1090; 32]%N.

(** [" (релевантность: "] *)
Definition label_relevance : str :=
  [32; 40; 1088; 1077; 1083; 1077; 1074; 1072; 1085; 1090; 1085; 1086; 1089;
   1090; 1100; 58; 32]%N.

(** ["[Позиция: "] *)
Definition label_position : str :=
  [91; 1055; 1086; 1079; 1080; 1094; 1080; 1103; 58; 32]%N.

(** [", Слов: "] *)
Definition label_words : str :=
  [44; 32; 1057; 1083; 1086; 1074; 58; 32]%N.

Section Assembly.

Context {E : Externals}.

(** [format(x, ".0%")] on a similarity score: Python's float formatting,
    taken as given. *)
Variable format_percent : Q -> str.

(** The four lines one result adds to the context. *)
Definition render_block (i : nat) (res : SearchResult) : str :=
  (label_fragment ++ str_of_nat i ++ label_relevance
     ++ format_percent (relevance res) ++ [41; 58; 10]%N)
  ++ (r_text res ++ [10]%N)
  ++ (label_position ++ str_of_nat (r_position res) ++ label_words
        ++ str_of_nat (r_word_count res) ++ [93; 10]%N)
  ++ (rule ++ [10; 10]%N).

(** [for i, res in enumerate(results, i): context += ...] *)
Fixpoint render_blocks (i : nat) (results : list SearchResult)
    (context : str) : str :=
  match results with
  | [] => context
  | res :: rest => render_blocks (S i) rest (context ++ render_block i res)
  end.

(** [search] is called with its default [min_similarity], 0.3. *)
Definition generate_context (query : str) (top_k : Z) (self : RAGEngine)
  : result str * RAGEngine :=
  let (results, self) := search query top_k (3 # 10) self in
  match results with
  | Raise e => (Raise e, self)
  | Ok [] => (Ok [], self)
  | Ok ((_ :: _) as results) =>
      (Ok (strip (render_blocks 1 results header)), self)
  end.

End Assembly.

(** ** A test double for the libraries

    One-dimensional embeddings, for which cosine similarity is exact: the
    product of the signs.  The tokenizer ends a sentence at [.], [!] or [?]
    before whitespace or the end of the text; the argsort is a stable
    insertion sort. *)

Module Stub.

Definition is_terminator (c : N) : bool :=
  ((c =? 46) || (c =? 33) || (c =? 63))%N.

Fixpoint tokenize_from (cur : str) (s : str) : list str :=
  match s with
  | [] => match cur with [] => [] | _ :: _ => [rev cur] end
  | c :: s' =>
      if isspace c && match cur with [] => true | _ :: _ => false end
      then tokenize_from [] s'
      else if is_terminator c
              && match s' with [] => true | d :: _ => isspace d end
           then rev (c :: cur) :: tokenize_from [] s'
           else tokenize_from (c :: cur) s'
  end.

(** The embedding of a text: its first code point, centred at [M]. *)
Definition embed (t : str) : Z :=
  match t with
  | [] => 0
  | c :: _ => Z.of_N c - 77
  end.

Definition cosine (X Y : list Z) : list (list Q) :=
  map (fun x => map (fun y => inject_Z (Z.sgn x * Z.sgn y)) Y) X.

Fixpoint insert_index (a : list Q) (i : nat) (l : list nat) : list nat :=
  match l with
  | [] => [i]
  | j :: l' =>
      if Qle_bool (at_index a i) (at_index a j) then i :: l
      else j :: insert_index a i l'
  end.

Definition stable_argsort (a : list Q) : list nat :=
  fold_right (insert_index a) [] (seq 0 (length a)).

#[export] Instance externals : Externals := {|
  vec := Z;
  sent_tokenize := tokenize_from [];
  encode := map embed;
  cosine_similarity := cosine;
  argsort := stable_argsort
|}.

End Stub.

(** ** A second test double, with scores off the grid

    Embeddings are unit vectors of the plane, given by the parameter [t] of
    the rational parametrisation of the circle; the cosine similarity of
    two unit vectors is their dot product, computed exactly and then
    rounded to float32. *)

Module Circle.

(** The unit vector with parameter [t]. *)
Definition unit (t : Q) : Q * Q :=
  ((1 - t * t) / (1 + t * t), (2 * t) / (1 + t * t))%Q.

(** The embedding of a text: a text of one word lies on the first axis, and
    each further word moves the parameter by a seventh. *)
Definition embed (t : str) : Q :=
  ((inject_Z (Z.of_nat (length (split t))) - 1) / 7)%Q.

Definition dot (x y : Q) : Q :=
  (fst (unit x) * fst (unit y) + snd (unit x) * snd (unit y))%Q.

Definition cosine (X Y : list Q) : list (list Q) :=
  map (fun x => map (fun y => Float32.round (dot x y)) Y) X.

Definition externals : Externals := {|
  vec := Q;
  sent_tokenize := Stub.tokenize_from [];
  encode := map embed;
  cosine_similarity := cosine;
  argsort := Stub.stable_argsort
|}.




End Circle.

(** ** Example inputs *)

Module Examples.
Import Stub.

(** Three sentences of three words each. *)
Definition three_sentences : Content :=
  {| full_text :=
       Some (lit "Alpha beta gamma. Delta epsilon zeta. Eta theta iota.");
     doc_metadata := None |}.

Definition empty_document : Content :=
  {| full_text := Some []; doc_metadata := None |}.

Definition s_alpha : str := lit "Alpha beta gamma.".
Definition s_delta : str := lit "Delta epsilon zeta.".
Definition s_eta : str := lit "Eta theta iota.".

(** The engine after indexing [three_sentences] with a budget of four words
    and no overlap: one chunk per sentence. *)
Definition indexed_engine : RAGEngine :=
  snd (index_document three_sentences 4 0 init).

(** The same document with an overlap of ten words (one sentence). *)
Definition overlap_engine : RAGEngine :=
  snd (index_document three_sentences 4 10 init).

(** [indexed_engine] after a call with the empty document. *)
Definition failed_engine : RAGEngine :=
  snd (index_document empty_document 400 50 indexed_engine).

End Examples.

(** ** A percent formatter for the examples

    Round-half-even of a hundred times the score, then the digits and a
    percent sign. *)

Module Percent.

Definition round_half_even (q : Q) : Z :=
  let f := Qfloor q in
  match (q - inject_Z f ?= 1 # 2)%Q with
  | Lt => f
  | Gt => f + 1
  | Eq => if Z.even f then f else f + 1
  end.

Definition format (q : Q) : str :=
  (match (q ?= 0)%Q with Lt => [45%N] | _ => [] end)
  ++ str_of_nat (Z.abs_nat (round_half_even (q * 100))) ++ [37%N].

End Percent.

(** ** More example inputs *)

Module MoreExamples.
Import Stub Examples.

(** Three sentences of which the second is opposite to the other two for
    the test embedding. *)
Definition mixed_document : Content :=
  {| full_text :=
       Some (lit "Alpha beta gamma. Zulu yankee xray. Echo foxtrot golf.");
     doc_metadata := Some [(lit "type", lit "word")] |}.

(** One chunk per sentence. *)
Definition mixed_engine : RAGEngine :=
  snd (index_document mixed_document 4 0 init).

(** The similarities of the three chunks to the query [Beta]. *)
Definition mixed_similarities : list Q := [1; -1; 1]%Q.

(** The chunks of [mixed_engine] at positions 2 and 0, as results. *)
Definition result_echo : SearchResult :=
  {| r_text := lit "Echo foxtrot golf."; relevance := 1;
     r_position := 2; r_word_count := 3 |}.

Definition result_alpha : SearchResult :=
  {| r_text := lit "Alpha beta gamma."; relevance := 1;
     r_position := 0; r_word_count := 3 |}.

(** [three_sentences] indexed with a budget of zero words. *)
Definition zero_budget_engine : RAGEngine :=
  snd (index_document three_sentences 0 0 init).

End MoreExamples.

(** ** Predicates used in the statements *)

(** Positions count the chunks appended so far. *)
Definition dense (l : list Chunk) : Prop :=
  map position l = seq 0 (length l).

(** A chunk and the sentence buffer it was closed from, given the buffer
    closed just before ([None] for the first chunk): the text is the joined
    buffer, and the word budget holds unless the buffer is a single
    sentence, or is the overlap tail of the buffer before it followed by
    exactly one sentence. *)
Definition within_budget (chunk_size overlap : Z)
    (prev : option (list str)) (c : Chunk) (buf : list str) : Prop :=
  text c = join buf /\
  (Z.of_nat (word_count c) <= chunk_size
   \/ length buf = 1%nat
   \/ exists p s, prev = Some p
                  /\ buf = overlap_sentences overlap p ++ [s]).

(** Every chunk is within budget in that sense, each with the buffer before
    it. *)
Fixpoint all_within_budget (chunk_size overlap : Z)
    (prev : option (list str)) (cs : list Chunk) (bufs : list (list str))
  : Prop :=
  match cs, bufs with
  | [], [] => True
  | c :: cs', buf :: bufs' =>
      within_budget chunk_size overlap prev c buf
      /\ all_within_budget chunk_size overlap (Some buf) cs' bufs'
  | _, _ => False
  end.

(** The buffer closed last, [prev] when there is none. *)
Fixpoint last_buffer (prev : option (list str)) (bufs : list (list str))
  : option (list str) :=
  match bufs with
  | [] => prev
  | buf :: bufs' => last_buffer (Some buf) bufs'
  end.

(** What the loop of [index_document] maintains, with the buffers closed so
    far: the running count is that of the buffer, which fits the budget
    unless it is a single sentence or the overlap tail of the last closed
    buffer followed by one sentence. *)
Definition loop_invariant (chunk_size overlap : Z)
    (g : loop_state * list (list str)) : Prop :=
  all_within_budget chunk_size overlap None (self_chunks (fst g)) (snd g)
  /\ current_length (fst g) = sum_words (current_chunk (fst g))
  /\ (current_chunk (fst g) = []
      \/ length (current_chunk (fst g)) = 1%nat
      \/ Z.of_nat (current_length (fst g)) <= chunk_size
      \/ exists p s, last_buffer None (snd g) = Some p
                     /\ current_chunk (fst g)
                        = overlap_sentences overlap p ++ [s]).

(** The last [n] sentences of a buffer (all of it when it has fewer). *)
Definition last_sentences (n : nat) (buf : list str) : list str :=
  skipn (length buf - n) buf.

(** The similarities [search] computes in a state that holds embeddings. *)
Definition chunk_similarities {E : Externals} (query : str)
    (self : RAGEngine) : result (list Q) :=
  match chunk_embeddings self with
  | Some embs => query_similarities query embs
  | None => Ok []
  end.

(** A result is the dict built for the chunk at index [i]. *)
Definition result_at (similarities : list Q) (cs : list Chunk)
    (r : SearchResult) (i : nat) : Prop :=
  exists c, nth_error cs i = Some c
            /\ r = result_of (at_index similarities i) c.

(** The engine states a program can reach from a fresh engine by calling
    the methods. *)
Inductive reachable {E : Externals} : RAGEngine -> Prop :=
| reach_init : reachable init
| reach_index (content : Content) (chunk_size overlap : Z) (st : RAGEngine) :
    reachable st ->
    reachable (snd (index_document content chunk_size overlap st))
| reach_search (query : str) (top_k : Z) (min_similarity : Q)
    (st : RAGEngine) :
    reachable st -> reachable (snd (search query top_k min_similarity st))
| reach_context (format_percent : Q -> str) (query : str) (top_k : Z)
    (st : RAGEngine) :
    reachable st ->
    reachable (snd (generate_context format_percent query top_k st))
| reach_summary (st : RAGEngine) :
    reachable st -> reachable (snd (get_document_summary st)).

(** Every element of a list and its successor are related. *)
Fixpoint adjacent (A : Type) (R : A -> A -> Prop) (l : list A) : Prop :=
  match l with
  | a :: (b :: _) as tl => R a b /\ adjacent R tl
  | _ => True
  end.

(** The buffer [next] starts with the overlap tail of [prev] and goes on
    with at least one more sentence. *)
Definition follows (overlap : Z) (prev next : list str) : Prop :=
  exists fresh, fresh <> [] /\ next = overlap_sentences overlap prev ++ fresh.


(** * Properties *)

(** ** Splitting and joining *)

Lemma split_from_app_space (a : str) : forall (w : str) (sp : N) (b : str),
  isspace sp = true ->
  split_from w (a ++ sp :: b) = split_from w a ++ split_from [] b.
Proof.
  induction a as [|c a IH]; intros w sp b Hsp; simpl.
  - rewrite Hsp. destruct w; reflexivity.
  - destruct (isspace c).
    + destruct w; simpl; rewrite (IH [] sp b Hsp); reflexivity.
    + apply IH, Hsp.
Qed.

Lemma split_join_cons (s : str) (l : list str) :
  split (join (s :: l)) = split s ++ split (join l).
Proof.
  destruct l as [|s' l].
  - simpl. now rewrite app_nil_r.
  - change (join (s :: s' :: l)) with (s ++ 32%N :: join (s' :: l)).
    unfold split. now apply split_from_app_space.
Qed.

(** The words of a joined buffer are the words of its sentences. *)
Lemma split_join_length (l : list str) :
  length (split (join l)) = sum_words l.
Proof.
  induction l as [|s l IH].
  - reflexivity.
  - rewrite split_join_cons, length_app, IH. reflexivity.
Qed.

Lemma sum_words_app (l1 l2 : list str) :
  sum_words (l1 ++ l2) = (sum_words l1 + sum_words l2)%nat.
Proof.
  induction l1 as [|s l1 IH]; simpl; [reflexivity|].
  rewrite IH. lia.
Qed.

(** ** The overlap tail *)

Lemma overlap_sentences_none (overlap : Z) (buf : list str) :
  overlap <= 0 -> overlap_sentences overlap buf = [].
Proof.
  intros H. unfold overlap_sentences.
  destruct (Z.ltb_spec 0 overlap); [lia | reflexivity].
Qed.

(** From ten words of overlap on, the tail is the last [overlap // 10]
    sentences of the buffer (all of it when it has fewer). *)
Lemma overlap_sentences_tens (overlap : Z) (buf : list str) :
  10 <= overlap ->
  overlap_sentences overlap buf
  = last_sentences (Z.to_nat (overlap / 10)) buf.
Proof.
  intros H. unfold overlap_sentences, slice_from, last_sentences.
  destruct (Z.ltb_spec 0 overlap); [|lia].
  assert (1 <= overlap / 10) by (apply Z.div_le_lower_bound; lia).
  destruct (Z.ltb_spec (- (overlap / 10)) 0); [|lia].
  f_equal. lia.
Qed.

(** Below ten words of overlap the slice starts at [-0], which is the start
    of the list: the whole buffer is carried over. *)
Lemma overlap_sentences_units (overlap : Z) (buf : list str) :
  0 < overlap < 10 -> overlap_sentences overlap buf = buf.
Proof.
  intros H. unfold overlap_sentences, slice_from.
  destruct (Z.ltb_spec 0 overlap); [|lia].
  rewrite Z.div_small by lia. simpl.
  rewrite Z.min_l by lia. reflexivity.
Qed.

(** When the loop closes a chunk, the next buffer is the overlap tail
    followed by the pending sentence, and the running count is the words of
    the tail plus those of the sentence. *)
Lemma loop_body_close (chunk_size overlap : Z) (st : loop_state)
    (sentence : str) :
  must_close chunk_size st sentence = true ->
  let st' := loop_body chunk_size overlap st sentence in
  self_chunks st'
  = self_chunks st ++ [make_chunk (self_chunks st) (current_chunk st)]
  /\ current_chunk st'
     = overlap_sentences overlap (current_chunk st) ++ [sentence]
  /\ current_length st'
     = (sum_words (overlap_sentences overlap (current_chunk st))
        + length (split sentence))%nat.
Proof.
  intros H. unfold loop_body. rewrite H. simpl. repeat split.
Qed.

(** ** The chunking loop *)

Lemma fold_left_invariant (A B : Type) (P : A -> Prop) (f : A -> B -> A)
    (l : list B) : forall a,
  P a -> (forall a b, P a -> P (f a b)) -> P (fold_left f l a).
Proof.
  induction l as [|b l IH]; intros a Ha Hstep; simpl; [exact Ha|].
  apply IH; auto.
Qed.

Lemma dense_snoc (l : list Chunk) (buf : list str) :
  dense l -> dense (l ++ [make_chunk l buf]).
Proof.
  unfold dense. intros H.
  rewrite map_app, length_app, seq_app, H. reflexivity.
Qed.

Lemma loop_body_dense (chunk_size overlap : Z) (st : loop_state)
    (sentence : str) :
  dense (self_chunks st) ->
  dense (self_chunks (loop_body chunk_size overlap st sentence)).
Proof.
  intros H. unfold loop_body.
  destruct (must_close chunk_size st sentence); simpl; [|exact H].
  now apply dense_snoc.
Qed.

Lemma chunk_sentences_dense (chunk_size overlap : Z) (sentences : list str) :
  dense (chunk_sentences chunk_size overlap sentences).
Proof.
  unfold chunk_sentences.
  set (st := fold_left _ _ _).
  assert (Hst : dense (self_chunks st)).
  { apply (fold_left_invariant (fun st => dense (self_chunks st))).
    - reflexivity.
    - intros; now apply loop_body_dense. }
  destruct (current_chunk st); [exact Hst | now apply dense_snoc].
Qed.

Lemma fst_fold_buffers (chunk_size overlap : Z) (sentences : list str) :
  forall g,
  fst (fold_left (buffers_body chunk_size overlap) sentences g)
  = fold_left (loop_body chunk_size overlap) sentences (fst g).
Proof.
  induction sentences as [|s l IH]; intros g; simpl; [reflexivity|].
  rewrite IH. reflexivity.
Qed.

Lemma must_close_inv (chunk_size : Z) (st : loop_state) (sentence : str) :
  must_close chunk_size st sentence = true ->
  current_chunk st <> [].
Proof.
  unfold must_close. intros H. apply andb_prop in H as [_ H].
  destruct (current_chunk st); [discriminate | discriminate].
Qed.

Lemma must_close_not (chunk_size : Z) (st : loop_state) (sentence : str) :
  must_close chunk_size st sentence = false ->
  current_chunk st = []
  \/ Z.of_nat (current_length st + length (split sentence)) <= chunk_size.
Proof.
  unfold must_close. intros H. apply andb_false_iff in H as [H | H].
  - right. apply Z.ltb_ge in H. exact H.
  - left. destruct (current_chunk st); [reflexivity | discriminate].
Qed.

Lemma last_buffer_snoc (bufs : list (list str)) :
  forall (prev : option (list str)) (buf : list str),
  last_buffer prev (bufs ++ [buf]) = Some buf.
Proof.
  induction bufs as [|b bufs IH]; intros prev buf; simpl;
    [reflexivity | apply IH].
Qed.

Lemma all_within_budget_snoc (chunk_size overlap : Z) (cs : list Chunk) :
  forall (prev : option (list str)) (bufs : list (list str)) (c : Chunk)
         (buf : list str),
  all_within_budget chunk_size overlap prev cs bufs ->
  within_budget chunk_size overlap (last_buffer prev bufs) c buf ->
  all_within_budget chunk_size overlap prev (cs ++ [c]) (bufs ++ [buf]).
Proof.
  induction cs as [|c0 cs IH]; intros prev bufs c buf Hall Hc;
    destruct bufs as [|b0 bufs]; simpl in *; try contradiction.
  - split; [exact Hc | exact I].
  - destruct Hall as [H0 Hall]. split; [exact H0|]. now apply IH.
Qed.

Lemma make_chunk_within_budget (chunk_size overlap : Z)
    (g : loop_state * list (list str)) :
  loop_invariant chunk_size overlap g ->
  current_chunk (fst g) <> [] ->
  within_budget chunk_size overlap (last_buffer None (snd g))
    (make_chunk (self_chunks (fst g)) (current_chunk (fst g)))
    (current_chunk (fst g)).
Proof.
  intros (Hall & Hlen & Hcases) Hne. split; [reflexivity|].
  simpl. rewrite split_join_length, <- Hlen.
  destruct Hcases as [H | [H | [H | (p & s & Hp & H)]]].
  - contradiction.
  - right; left; exact H.
  - left; exact H.
  - right; right. now exists p, s.
Qed.

Lemma buffers_body_invariant (chunk_size overlap : Z)
    (g : loop_state * list (list str)) (sentence : str) :
  loop_invariant chunk_size overlap g ->
  loop_invariant chunk_size overlap (buffers_body chunk_size overlap g sentence).
Proof.
  intros Hinv.
  pose proof Hinv as (Hall & Hlen & Hcases).
  unfold buffers_body, loop_body, loop_invariant.
  destruct (must_close chunk_size (fst g) sentence) eqn:Hclose; simpl.
  - pose proof (must_close_inv _ _ _ Hclose) as Hne.
    split; [|split].
    + apply all_within_budget_snoc; [exact Hall|].
      now apply make_chunk_within_budget.
    + rewrite sum_words_app. simpl. lia.
    + right; right; right.
      exists (current_chunk (fst g)), sentence.
      split; [apply last_buffer_snoc | reflexivity].
  - split; [exact Hall | split].
    + rewrite sum_words_app, Hlen. simpl. lia.
    + destruct (must_close_not _ _ _ Hclose) as [Hnil | Hfit].
      * right; left. rewrite Hnil. reflexivity.
      * right; right; left. exact Hfit.
Qed.

Lemma chunk_sentences_within_budget (chunk_size overlap : Z)
    (sentences : list str) :
  all_within_budget chunk_size overlap None
    (chunk_sentences chunk_size overlap sentences)
    (chunk_buffers chunk_size overlap sentences).
Proof.
  unfold chunk_sentences, chunk_buffers.
  pose proof (fst_fold_buffers chunk_size overlap sentences (loop_start, []))
    as Hfst.
  simpl in Hfst. rewrite <- Hfst.
  set (g := fold_left _ _ _).
  assert (Hinv : loop_invariant chunk_size overlap g).
  { apply (fold_left_invariant (loop_invariant chunk_size overlap)).
    - split; [exact I | split; [reflexivity | now left]].
    - intros; now apply buffers_body_invariant. }
  destruct (current_chunk (fst g)) eqn:Hbuf.
  - apply Hinv.
  - apply all_within_budget_snoc; [apply Hinv|].
    rewrite <- Hbuf. apply make_chunk_within_budget; [exact Hinv|].
    rewrite Hbuf. discriminate.
Qed.

(** ** Indexing *)

Section Indexing.

Context {E : Externals}.

Lemma index_document_false (content : Content) (chunk_size overlap : Z)
    (st0 st : RAGEngine) :
  index_document content chunk_size overlap st0 = (false, st) ->
  chunks st = [] /\ chunk_embeddings st = chunk_embeddings st0.
Proof.
  unfold index_document.
  destruct (too_short (get_full_text content)).
  - intros [= <-]. split; reflexivity.
  - destruct (chunk_sentences _ _ _); intros [= <-]. split; reflexivity.
Qed.

Lemma index_document_true (content : Content) (chunk_size overlap : Z)
    (st0 st : RAGEngine) :
  index_document content chunk_size overlap st0 = (true, st) ->
  chunks st
  = chunk_sentences chunk_size overlap (sent_tokenize (get_full_text content))
  /\ chunks st <> []
  /\ chunk_embeddings st = Some (encode (map text (chunks st))).
Proof.
  unfold index_document.
  destruct (too_short (get_full_text content)); [discriminate|].
  destruct (chunk_sentences _ _ _) eqn:Hcs; intros [= <-]; simpl.
  repeat split. discriminate.
Qed.

Lemma index_document_chunks (content : Content) (chunk_size overlap : Z)
    (st0 : RAGEngine) :
  let st := snd (index_document content chunk_size overlap st0) in
  chunks st = []
  \/ chunks st
     = chunk_sentences chunk_size overlap
         (sent_tokenize (get_full_text content)).
Proof.
  unfold index_document.
  destruct (too_short (get_full_text content)); [now left|].
  destruct (chunk_sentences _ _ _) eqn:Hcs; simpl; [now left | now right].
Qed.

Lemma too_short_empty : too_short [] = true.
Proof. reflexivity. Qed.

End Indexing.

(** ** Order on similarity scores *)

Lemma Qltb_true (a b : Q) : Qltb a b = true -> (a < b)%Q.
Proof.
  unfold Qltb. intros H. apply negb_true_iff in H.
  apply Qnot_le_lt. intros Hle. apply Qle_bool_iff in Hle. congruence.
Qed.

Lemma Qltb_false (a b : Q) : Qltb a b = false -> (b <= a)%Q.
Proof.
  unfold Qltb. intros H. apply negb_false_iff in H.
  now apply Qle_bool_iff.
Qed.

Lemma Qltb_ge (a b : Q) : (b <= a)%Q -> Qltb a b = false.
Proof.
  intros H. unfold Qltb. apply negb_false_iff. now apply Qle_bool_iff.
Qed.

(** ** Rounding to single precision *)

Module Float32Facts.
Import Float32.
Local Open Scope Q_scope.

Lemma pow2_pos (z : Z) : 0 < pow2 z.
Proof. apply Qpower_0_lt. reflexivity. Qed.

Lemma pow2_add (x y : Z) : pow2 (x + y) == pow2 x * pow2 y.
Proof. apply Qpower_plus. discriminate. Qed.

Lemma pow2_le (x y : Z) : (x <= y)%Z -> pow2 x <= pow2 y.
Proof. intros H. apply Qpower_le_compat_l; [exact H | discriminate]. Qed.

Lemma pow2_lt_inv (x y : Z) : pow2 x < pow2 y -> (x < y)%Z.
Proof. intros H. apply (Qpower_lt_compat_l_inv _ _ _ H). reflexivity. Qed.

Lemma pow2_nat (x : Z) : (0 <= x)%Z -> pow2 x == inject_Z (2 ^ x).
Proof. intros H. unfold pow2. now rewrite (Zpower_Qpower 2 x H). Qed.

Lemma pow2_sub (x y : Z) :
  (0 <= x)%Z -> (0 <= y)%Z -> pow2 (x - y) == (2 ^ x) # Z.to_pos (2 ^ y).
Proof.
  intros Hx Hy. unfold pow2.
  rewrite Qpower_minus by discriminate.
  rewrite (Qmake_Qdiv (2 ^ x) (Z.to_pos (2 ^ y))).
  rewrite Z2Pos.id by (apply Z.pow_pos_nonneg; lia).
  rewrite (Zpower_Qpower 2 x Hx), (Zpower_Qpower 2 y Hy). reflexivity.
Qed.

Lemma ilog2_spec (a : Q) :
  0 < a -> pow2 (ilog2 a) <= a /\ a < pow2 (ilog2 a + 1).
Proof.
  intros Ha. destruct a as [n d].
  assert (Hn : (0 < n)%Z) by (unfold Qlt in Ha; simpl in Ha; lia).
  unfold ilog2. cbn [Qnum Qden].
  set (ln := Z.log2 n). set (ld := Z.log2 (Zpos d)).
  pose proof (Z.log2_spec n Hn) as [Hn1 Hn2].
  pose proof (Z.log2_spec (Zpos d) (Pos2Z.is_pos d)) as [Hd1 Hd2].
  pose proof (Z.log2_nonneg n) as Hln.
  pose proof (Z.log2_nonneg (Zpos d)) as Hld.
  fold ln in Hn1, Hn2, Hln. fold ld in Hd1, Hd2, Hld.
  assert (Hlow : pow2 (ln - ld - 1) <= n # d).
  { replace (ln - ld - 1)%Z with (ln - (ld + 1))%Z by lia.
    rewrite pow2_sub by lia. unfold Qle. cbn [Qnum Qden].
    rewrite Z2Pos.id by (apply Z.pow_pos_nonneg; lia).
    rewrite <- Z.add_1_r in Hd2. nia. }
  assert (Hup : n # d < pow2 (ln - ld + 1)).
  { replace (ln - ld + 1)%Z with ((ln + 1) - ld)%Z by lia.
    rewrite pow2_sub by lia. unfold Qlt. cbn [Qnum Qden].
    rewrite Z2Pos.id by (apply Z.pow_pos_nonneg; lia).
    rewrite <- Z.add_1_r in Hn2.
    assert (0 < 2 ^ ld)%Z by (apply Z.pow_pos_nonneg; lia).
    nia. }
  destruct (Qle_bool (pow2 (ln - ld)) (n # d)) eqn:Hb.
  - split; [now apply Qle_bool_iff | exact Hup].
  - split; [exact Hlow|].
    replace (ln - ld - 1 + 1)%Z with (ln - ld)%Z by lia.
    apply Qnot_le_lt. intros Hle. apply Qle_bool_iff in Hle. congruence.
Qed.

Lemma ilog2_mono (a b : Q) : 0 < a -> a <= b -> (ilog2 a <= ilog2 b)%Z.
Proof.
  intros Ha Hab.
  assert (Hb : 0 < b) by now apply Qlt_le_trans with a.
  destruct (ilog2_spec Ha) as [Ha1 _].
  destruct (ilog2_spec Hb) as [_ Hb2].
  assert (H : pow2 (ilog2 a) < pow2 (ilog2 b + 1)).
  { apply Qle_lt_trans with a; [exact Ha1|].
    now apply Qle_lt_trans with b. }
  apply pow2_lt_inv in H. lia.
Qed.

(** *** Rounding to the nearest integer *)

Lemma rhe_bounds (x : Q) :
  (Qfloor x <= round_half_even x <= Qfloor x + 1)%Z.
Proof.
  unfold round_half_even.
  destruct (x - inject_Z (Qfloor x) ?= 1 # 2); try lia.
  destruct (Z.even (Qfloor x)); lia.
Qed.

Lemma rhe_ge (x : Q) (k : Z) : inject_Z k <= x -> (k <= round_half_even x)%Z.
Proof.
  intros H. apply Qfloor_resp_le in H. rewrite Qfloor_Z in H.
  pose proof (rhe_bounds x). lia.
Qed.

Lemma rhe_le (x : Q) (k : Z) : x <= inject_Z k -> (round_half_even x <= k)%Z.
Proof.
  intros H. pose proof (Qfloor_resp_le _ _ H) as Hf. rewrite Qfloor_Z in Hf.
  pose proof (rhe_bounds x) as Hb.
  destruct (Z.eq_dec (Qfloor x) k) as [Heq | Hne]; [|lia].
  unfold round_half_even.
  assert (Hx : x - inject_Z (Qfloor x) <= 0).
  { rewrite Heq. apply Qle_minus_iff.
    setoid_replace (0 + - (x - inject_Z k)) with (inject_Z k + - x) by ring.
    now apply Qle_minus_iff in H. }
  assert (Hlt : x - inject_Z (Qfloor x) < 1 # 2)
    by (apply Qle_lt_trans with 0; [exact Hx | reflexivity]).
  cbv zeta.
  destruct (Qcompare_spec (x - inject_Z (Qfloor x)) (1 # 2)) as [E | _ | G];
    [|lia|]; exfalso.
  - rewrite E in Hlt. discriminate.
  - exact (Qlt_irrefl _ (Qlt_trans _ _ _ Hlt G)).
Qed.

Lemma rhe_mono (x y : Q) : x <= y -> (round_half_even x <= round_half_even y)%Z.
Proof.
  intros H. pose proof (Qfloor_resp_le _ _ H) as Hf.
  pose proof (rhe_bounds x) as Hx. pose proof (rhe_bounds y) as Hy.
  destruct (Z.eq_dec (Qfloor x) (Qfloor y)) as [Heq | Hne]; [|lia].
  unfold round_half_even. cbv zeta. rewrite <- Heq.
  assert (Hfrac : x - inject_Z (Qfloor x) <= y - inject_Z (Qfloor x))
    by (apply Qplus_le_l; exact H).
  destruct (Qcompare_spec (x - inject_Z (Qfloor x)) (1 # 2)) as [Ex | Lx | Gx];
  destruct (Qcompare_spec (y - inject_Z (Qfloor x)) (1 # 2)) as [Ey | Ly | Gy];
    try (destruct (Z.even (Qfloor x)); lia); try lia; exfalso.
  - rewrite Ex in Hfrac. exact (Qlt_not_le _ _ Ly Hfrac).
  - rewrite Ey in Hfrac. exact (Qlt_not_le _ _ Gx Hfrac).
  - exact (Qlt_not_le _ _ (Qlt_trans _ _ _ Ly Gx) Hfrac).
Qed.

(** *** Rounding to float32 is monotone *)

Lemma round_pos_unfold (a : Q) :
  round_pos a = inject_Z (round_half_even (a / pow2 (Z.max (ilog2 a) (-126) - 23))) * pow2 (Z.max (ilog2 a) (-126) - 23).
Proof. reflexivity. Qed.

Lemma scaled_le (a b : Q) (u : Z) : a <= b -> a / pow2 u <= b / pow2 u.
Proof.
  intros H. unfold Qdiv. apply Qmult_le_compat_r; [exact H|].
  apply Qlt_le_weak, Qinv_lt_0_compat, pow2_pos.
Qed.

Lemma round_pos_nonneg (a : Q) : 0 < a -> 0 <= round_pos a.
Proof.
  intros Ha. rewrite round_pos_unfold.
  apply Qmult_le_0_compat; [|apply Qlt_le_weak, pow2_pos].
  change 0 with (inject_Z 0). rewrite <- Zle_Qle.
  apply rhe_ge. simpl.
  apply Qle_shift_div_l; [apply pow2_pos|].
  rewrite Qmult_0_l. now apply Qlt_le_weak.
Qed.

Lemma round_pos_mono (a b : Q) :
  0 < a -> a <= b -> round_pos a <= round_pos b.
Proof.
  intros Ha Hab.
  assert (Hb : 0 < b) by now apply Qlt_le_trans with a.
  pose proof (ilog2_mono Ha Hab) as He.
  rewrite !round_pos_unfold.
  destruct (Z.eq_dec (Z.max (ilog2 a) (-126) - 23) (Z.max (ilog2 b) (-126) - 23)) as [Heq | Hne].
  - rewrite Heq. apply Qmult_le_compat_r; [|apply Qlt_le_weak, pow2_pos].
    rewrite <- Zle_Qle. apply rhe_mono. now apply scaled_le.
  - assert (Hclamp : (Z.max (ilog2 b) (-126) = ilog2 b)%Z) by lia.
    assert (Hlt : (Z.max (ilog2 a) (-126) + 1 <= ilog2 b)%Z) by lia.
    set (Ea := Z.max (ilog2 a) (-126)) in *.
    rewrite Hclamp in *.
    destruct (ilog2_spec Ha) as [_ Ha2].
    destruct (ilog2_spec Hb) as [Hb1 _].
    apply Qle_trans with (pow2 (ilog2 b)).
    + apply Qle_trans with (pow2 (Ea + 1)); [|now apply pow2_le].
      setoid_replace (pow2 (Ea + 1)) with (inject_Z (2 ^ 24) * pow2 (Ea - 23)).
      * apply Qmult_le_compat_r; [|apply Qlt_le_weak, pow2_pos].
        rewrite <- Zle_Qle. apply rhe_le.
        apply Qle_shift_div_r; [apply pow2_pos|].
        rewrite <- pow2_nat by lia. rewrite <- pow2_add.
        replace (24 + (Ea - 23))%Z with (Ea + 1)%Z by lia.
        apply Qlt_le_weak, Qlt_le_trans with (pow2 (ilog2 a + 1));
          [exact Ha2 | apply pow2_le; lia].
      * rewrite <- pow2_nat by lia. rewrite <- pow2_add.
        replace (24 + (Ea - 23))%Z with (Ea + 1)%Z by lia. reflexivity.
    + setoid_replace (pow2 (ilog2 b))
        with (inject_Z (2 ^ 23) * pow2 (ilog2 b - 23)).
      * apply Qmult_le_compat_r; [|apply Qlt_le_weak, pow2_pos].
        rewrite <- Zle_Qle. apply rhe_ge.
        apply Qle_shift_div_l; [apply pow2_pos|].
        rewrite <- pow2_nat by lia. rewrite <- pow2_add.
        replace (23 + (ilog2 b - 23))%Z with (ilog2 b) by lia. exact Hb1.
      * rewrite <- pow2_nat by lia. rewrite <- pow2_add.
        replace (23 + (ilog2 b - 23))%Z with (ilog2 b) by lia. reflexivity.
Qed.

Lemma round_mono (x y : Q) : x <= y -> round x <= round y.
Proof.
  intros H. unfold round.
  destruct (Qcompare_spec x 0) as [Ex | Lx | Gx];
    destruct (Qcompare_spec y 0) as [Ey | Ly | Gy].
  - apply Qle_refl.
  - exfalso. rewrite Ex in H. exact (Qlt_not_le _ _ Ly H).
  - now apply round_pos_nonneg.
  - apply (Qopp_le_compat 0 (round_pos (- x))).
    apply round_pos_nonneg. now apply (Qopp_lt_compat x 0).
  - apply Qopp_le_compat. apply round_pos_mono.
    + now apply (Qopp_lt_compat y 0).
    + now apply Qopp_le_compat.
  - apply Qle_trans with 0.
    + apply (Qopp_le_compat 0 (round_pos (- x))).
      apply round_pos_nonneg. now apply (Qopp_lt_compat x 0).
    + now apply round_pos_nonneg.
  - exfalso. rewrite Ey in H. exact (Qlt_not_le _ _ Gx H).
  - exfalso. exact (Qlt_not_le _ _ (Qlt_trans _ _ _ Ly Gx) H).
  - now apply round_pos_mono.
Qed.

Lemma round_zero_le (m : Q) : 0 <= m -> 0 <= round m.
Proof. intros H. apply (round_mono H). Qed.

(** The default floor of [search], 0.3, rounds up. *)
Lemma round_default_floor : 3 # 10 <= round (3 # 10).
Proof. vm_compute. discriminate. Qed.

(** *** Rounding is idempotent *)

Lemma ilog2_unique (v : Q) (e : Z) :
  pow2 e <= v -> v < pow2 (e + 1) -> ilog2 v = e.
Proof.
  intros H1 H2.
  assert (Hv : 0 < v)
    by (apply Qlt_le_trans with (pow2 e); [apply pow2_pos | exact H1]).
  destruct (ilog2_spec Hv) as [H3 H4].
  assert (Ha : pow2 (ilog2 v) < pow2 (e + 1)) by now apply Qle_lt_trans with v.
  assert (Hb : pow2 e < pow2 (ilog2 v + 1)) by now apply Qle_lt_trans with v.
  apply pow2_lt_inv in Ha. apply pow2_lt_inv in Hb. lia.
Qed.

Lemma rhe_comp (x y : Q) : x == y -> round_half_even x = round_half_even y.
Proof.
  intros H. unfold round_half_even. cbv zeta.
  rewrite (Qfloor_comp _ _ H).
  assert (Hc : (x - inject_Z (Qfloor y) ?= 1 # 2) = (y - inject_Z (Qfloor y) ?= 1 # 2))
    by now rewrite H.
  now rewrite Hc.
Qed.

Lemma rhe_Z (k : Z) : round_half_even (inject_Z k) = k.
Proof.
  pose proof (rhe_ge (x := inject_Z k) (k := k) (Qle_refl _)).
  pose proof (rhe_le (x := inject_Z k) (k := k) (Qle_refl _)). lia.
Qed.

(** A multiple of the spacing of its own binade is left as it is. *)
Lemma round_pos_grid (k E : Z) :
  (-126 <= E)%Z ->
  (0 < k <= 2 ^ 24)%Z ->
  (2 ^ 23 <= k \/ E = -126)%Z ->
  round_pos (inject_Z k * pow2 (E - 23)) == inject_Z k * pow2 (E - 23).
Proof.
  intros HE Hk Hnorm.
  set (v := inject_Z k * pow2 (E - 23)).
  assert (Hscale : forall j : Z,
            inject_Z (2 ^ j) * pow2 (E - 23) == pow2 (E - 23 + j)
            \/ (j < 0)%Z).
  { intros j. destruct (Z.ltb_spec j 0); [now right | left].
    rewrite <- pow2_nat by lia. rewrite <- pow2_add. now rewrite Z.add_comm. }
  assert (Hlow : (2 ^ 23 <= k)%Z -> pow2 E <= v).
  { intros H. destruct (Hscale 23%Z) as [H23 | ?]; [|lia].
    replace (E - 23 + 23)%Z with E in H23 by lia. rewrite <- H23.
    apply Qmult_le_compat_r; [now rewrite <- Zle_Qle | apply Qlt_le_weak, pow2_pos]. }
  assert (Hup : (k < 2 ^ 24)%Z -> v < pow2 (E + 1)).
  { intros H. destruct (Hscale 24%Z) as [H24 | ?]; [|lia].
    replace (E - 23 + 24)%Z with (E + 1)%Z in H24 by lia. rewrite <- H24.
    apply Qmult_lt_compat_r; [apply pow2_pos | now rewrite <- Zlt_Qlt]. }
  assert (Hsame : Z.max (ilog2 v) (-126) = E -> round_pos v == v).
  { intros Hmax. unfold round_pos. cbv zeta. rewrite Hmax.
    assert (Hx : v / pow2 (E - 23) == inject_Z k).
    { unfold v. apply Qdiv_mult_l.
      intros H0. pose proof (pow2_pos (E - 23)) as Hp. rewrite H0 in Hp.
      discriminate. }
    rewrite (rhe_comp Hx), rhe_Z. reflexivity. }
  destruct (Z.eq_dec k (2 ^ 24)) as [Htop | Htop].
  - assert (Hv : v == pow2 (E + 1)).
    { unfold v. rewrite Htop. destruct (Hscale 24%Z) as [H24 | ?]; [|lia].
      rewrite H24. now replace (E - 23 + 24)%Z with (E + 1)%Z by lia. }
    assert (Hlog : ilog2 v = (E + 1)%Z).
    { apply ilog2_unique.
      - rewrite Hv. apply Qle_refl.
      - rewrite Hv. apply Qpower_lt_compat_l; [lia | reflexivity]. }
    unfold round_pos. cbv zeta. rewrite Hlog.
    replace (Z.max (E + 1) (-126) - 23)%Z with (E + 1 - 23)%Z by lia.
    assert (Hx : v / pow2 (E + 1 - 23) == inject_Z (2 ^ 23)).
    { rewrite Hv. apply Qle_antisym.
      - apply Qle_shift_div_r; [apply pow2_pos|].
        rewrite <- pow2_nat by lia. rewrite <- pow2_add.
        replace (23 + (E + 1 - 23))%Z with (E + 1)%Z by lia. apply Qle_refl.
      - apply Qle_shift_div_l; [apply pow2_pos|].
        rewrite <- pow2_nat by lia. rewrite <- pow2_add.
        replace (23 + (E + 1 - 23))%Z with (E + 1)%Z by lia. apply Qle_refl. }
    rewrite (rhe_comp Hx), rhe_Z, Hv.
    rewrite <- pow2_nat by lia. rewrite <- pow2_add.
    now replace (23 + (E + 1 - 23))%Z with (E + 1)%Z by lia.
  - apply Hsame.
    assert (Hup' : v < pow2 (E + 1)) by (apply Hup; lia).
    destruct (Z.le_gt_cases (2 ^ 23) k) as [Hbig | Hsmall].
    + rewrite (@ilog2_unique _ _ (Hlow Hbig) Hup'). lia.
    + assert (HE' : E = (-126)%Z) by lia.
      assert (Hv0 : 0 < v).
      { unfold v. apply Qmult_lt_0_compat; [|apply pow2_pos].
        change 0 with (inject_Z 0). rewrite <- Zlt_Qlt. lia. }
      destruct (ilog2_spec Hv0) as [H1 _].
      assert (Hv1 : v < pow2 E).
      { destruct (Hscale 23%Z) as [H23 | ?]; [|lia].
        replace (E - 23 + 23)%Z with E in H23 by lia. rewrite <- H23.
        apply Qmult_lt_compat_r; [apply pow2_pos | now rewrite <- Zlt_Qlt]. }
      assert (Hlt : pow2 (ilog2 v) < pow2 E) by now apply Qle_lt_trans with v.
      apply pow2_lt_inv in Hlt. lia.
Qed.

Lemma round_pos_comp (a b : Q) : 0 < a -> a == b -> round_pos a == round_pos b.
Proof.
  intros Ha Hab.
  assert (Hb : 0 < b) by now rewrite <- Hab.
  assert (Hlog : ilog2 a = ilog2 b).
  { destruct (ilog2_spec Hb) as [H1 H2].
    apply ilog2_unique; now rewrite Hab. }
  unfold round_pos. cbv zeta. rewrite Hlog.
  assert (Hx : a / pow2 (Z.max (ilog2 b) (-126) - 23)
               == b / pow2 (Z.max (ilog2 b) (-126) - 23)) by now rewrite Hab.
  rewrite (rhe_comp Hx). reflexivity.
Qed.

(** The shape of a rounded value: a multiple, of at most 24 bits, of the
    spacing of its binade. *)
Lemma round_pos_shape (a : Q) :
  0 < a ->
  exists k E : Z,
    round_pos a = inject_Z k * pow2 (E - 23)
    /\ (-126 <= E)%Z /\ (0 <= k <= 2 ^ 24)%Z
    /\ (2 ^ 23 <= k \/ E = -126)%Z.
Proof.
  intros Ha.
  set (E := Z.max (ilog2 a) (-126)).
  exists (round_half_even (a / pow2 (E - 23))), E.
  split; [reflexivity|]. split; [lia|].
  destruct (ilog2_spec Ha) as [H1 H2].
  assert (Hp : 0 < pow2 (E - 23)) by apply pow2_pos.
  assert (Hscale : forall j : Z, (0 <= j)%Z ->
            inject_Z (2 ^ j) * pow2 (E - 23) == pow2 (E - 23 + j)).
  { intros j Hj. rewrite <- pow2_nat by lia. rewrite <- pow2_add.
    now rewrite Z.add_comm. }
  split; [split|].
  - apply rhe_ge. apply Qle_shift_div_l; [exact Hp|].
    rewrite Qmult_0_l. now apply Qlt_le_weak.
  - apply rhe_le. apply Qle_shift_div_r; [exact Hp|].
    rewrite Hscale by lia.
    apply Qlt_le_weak. apply Qlt_le_trans with (pow2 (ilog2 a + 1));
      [exact H2 | apply pow2_le; lia].
  - destruct (Z.le_gt_cases (-126) (ilog2 a)) as [Hn | Hs]; [left | right; lia].
    apply rhe_ge. apply Qle_shift_div_l; [exact Hp|].
    rewrite Hscale by lia.
    replace (E - 23 + 23)%Z with (ilog2 a) by lia. exact H1.
Qed.

Lemma round_pos_idem (a : Q) :
  0 < a -> round (round_pos a) == round_pos a.
Proof.
  intros Ha.
  destruct (round_pos_shape Ha) as (k & E & -> & HE & Hk & Hn).
  set (v := inject_Z k * pow2 (E - 23)).
  destruct (Z.eq_dec k 0) as [-> | Hk0].
  - assert (Hv : v == 0) by (unfold v; apply Qmult_0_l).
    assert (Hc : (v ?= 0) = Eq) by now apply Qeq_alt.
    unfold round. rewrite Hc. now rewrite Hv.
  - assert (Hv : 0 < v).
    { unfold v. apply Qmult_lt_0_compat; [|apply pow2_pos].
      change 0 with (inject_Z 0). rewrite <- Zlt_Qlt. lia. }
    assert (Hc : (v ?= 0) = Gt) by now apply Qgt_alt.
    unfold round. rewrite Hc.
    apply round_pos_grid; [exact HE | lia | exact Hn].
Qed.

(** Rounding a rounded value changes nothing. *)
Lemma round_idem (q : Q) : round (round q) == round q.
Proof.
  unfold round at 2 3.
  destruct (q ?= 0) eqn:Hq.
  - reflexivity.
  - apply Qlt_alt in Hq.
    assert (Ha : 0 < - q) by (apply Qopp_lt_compat in Hq; exact Hq).
    destruct (round_pos_shape Ha) as (k & E & Hshape & HE & Hk & Hn).
    rewrite Hshape. set (v := inject_Z k * pow2 (E - 23)).
    destruct (Z.eq_dec k 0) as [-> | Hk0].
    + assert (Hv : - v == 0) by (unfold v; rewrite Qmult_0_l; reflexivity).
      assert (Hc : (- v ?= 0) = Eq) by now apply Qeq_alt.
      unfold round. rewrite Hc. now rewrite Hv.
    + assert (Hv : 0 < v).
      { unfold v. apply Qmult_lt_0_compat; [|apply pow2_pos].
        change 0 with (inject_Z 0). rewrite <- Zlt_Qlt. lia. }
      assert (Hneg : - v < 0) by (apply Qopp_lt_compat in Hv; exact Hv).
      assert (Hc : (- v ?= 0) = Lt) by now apply Qlt_alt.
      unfold round. rewrite Hc.
      assert (Hvv : 0 < - - v) by now rewrite Qopp_involutive.
      rewrite (round_pos_comp Hvv (Qopp_involutive v)).
      apply Qopp_comp.
      apply round_pos_grid; [exact HE | lia | exact Hn].
  - apply Qgt_alt in Hq. now apply round_pos_idem.
Qed.

End Float32Facts.

(** ** Sorted lists *)

Section Sorted.

Variable A : Type.
Variable R : A -> A -> Prop.

Lemma StronglySorted_app (l1 l2 : list A) :
  StronglySorted R l1 -> StronglySorted R l2 ->
  (forall x y, In x l1 -> In y l2 -> R x y) ->
  StronglySorted R (l1 ++ l2).
Proof.
  induction l1 as [|a l1 IH]; intros H1 H2 Hcross; simpl; [exact H2|].
  apply StronglySorted_inv in H1 as [H1 Ha].
  constructor.
  - apply IH; [exact H1 | exact H2 |].
    intros x y Hx Hy. apply Hcross; [now right | exact Hy].
  - apply Forall_app. split; [exact Ha|].
    apply Forall_forall. intros y Hy. apply Hcross; [now left | exact Hy].
Qed.

Lemma StronglySorted_app_inv (l1 l2 : list A) :
  StronglySorted R (l1 ++ l2) ->
  StronglySorted R l1
  /\ (forall x y, In x l1 -> In y l2 -> R x y).
Proof.
  induction l1 as [|a l1 IH]; simpl; intros H.
  - split; [constructor | intros x y []].
  - apply StronglySorted_inv in H as [H Ha].
    destruct (IH H) as [IH1 IH2].
    apply Forall_app in Ha as [Ha1 Ha2].
    split; [now constructor|].
    intros x y [<- | Hx] Hy.
    + rewrite Forall_forall in Ha2. now apply Ha2.
    + now apply IH2.
Qed.

End Sorted.

Lemma StronglySorted_rev (A : Type) (R : A -> A -> Prop) (l : list A) :
  StronglySorted R l -> StronglySorted (fun a b => R b a) (rev l).
Proof.
  induction 1 as [|a l Hl IH Ha]; simpl; [constructor|].
  apply StronglySorted_app; [exact IH | repeat constructor |].
  intros x y Hx [<- | []].
  apply in_rev in Hx. rewrite Forall_forall in Ha. now apply Ha.
Qed.

Lemma StronglySorted_map (A B : Type) (R : B -> B -> Prop) (f : A -> B)
    (l : list A) :
  StronglySorted R (map f l) -> StronglySorted (fun a b => R (f a) (f b)) l.
Proof.
  induction l as [|a l IH]; simpl; intros H; [constructor|].
  apply StronglySorted_inv in H as [H Ha].
  constructor; [now apply IH|].
  apply Forall_forall. intros b Hb.
  rewrite Forall_forall in Ha. apply Ha. now apply in_map.
Qed.

(** ** The search loop *)

Lemma getitem_at_index (sims : list Q) (i : nat) :
  (i < length sims)%nat -> getitem sims i = Ok (at_index sims i).
Proof.
  intros Hi. unfold getitem, at_index.
  destruct (nth_error sims i) as [s|] eqn:Hs.
  - now rewrite (nth_error_nth _ _ _ Hs).
  - apply nth_error_None in Hs. lia.
Qed.

Lemma result_at_relevance (sims : list Q) (cs : list Chunk)
    (rs : list SearchResult) (idxs : list nat) :
  Forall2 (result_at sims cs) rs idxs ->
  map relevance rs = map (at_index sims) idxs.
Proof.
  induction 1 as [|r i rs idxs (c & _ & ->) _ IH]; simpl; [reflexivity|].
  now rewrite IH.
Qed.

(** From valid indices the loop returns: it appends the results of a prefix
    of the indices, all at least the rounded [min_similarity], and stops at
    the end of the indices, at the first index below the rounded
    [min_similarity], or after the append that reaches [top_k]. *)
Lemma search_loop_spec (sims : list Q) (cs : list Chunk) (top_k : Z)
    (min_similarity : Q) (idxs : list nat) :
  length cs = length sims ->
  Forall (fun i => (i < length sims)%nat) idxs ->
  forall acc, exists pre suf new,
    idxs = pre ++ suf
    /\ search_loop sims cs top_k min_similarity idxs acc = Ok (acc ++ new)
    /\ Forall2 (result_at sims cs) new pre
    /\ Forall (fun i => (Float32.round min_similarity <= at_index sims i)%Q)
         pre
    /\ (new = []
        \/ Z.of_nat (length (acc ++ new))
           <= Z.max top_k (Z.of_nat (length acc) + 1))
    /\ (suf = []
        \/ (exists i suf', suf = i :: suf'
                           /\ (at_index sims i
                               < Float32.round min_similarity)%Q)
        \/ (new <> [] /\ top_k <= Z.of_nat (length (acc ++ new)))).
Proof.
  intros Hlen. induction 1 as [|idx rest Hidx Hrest IH]; intros acc.
  - exists [], [], []. simpl. rewrite app_nil_r.
    split; [reflexivity|]. split; [reflexivity|].
    split; [constructor|]. split; [constructor|].
    split; now left.
  - simpl. rewrite (getitem_at_index _ Hidx).
    destruct (Qltb (at_index sims idx) (Float32.round min_similarity))
      eqn:Hlt.
    + exists [], (idx :: rest), []. rewrite app_nil_r.
      apply Qltb_true in Hlt.
      split; [reflexivity|]. split; [reflexivity|].
      split; [constructor|]. split; [constructor|].
      split; [now left|].
      right; left. now exists idx, rest.
    + apply Qltb_false in Hlt.
      unfold getitem at 1.
      destruct (nth_error cs idx) as [c|] eqn:Hc;
        [|apply nth_error_None in Hc; lia].
      set (r := result_of (at_index sims idx) c).
      assert (Hr : result_at sims cs r idx)
        by (exists c; split; [exact Hc | reflexivity]).
      destruct (Z.leb_spec top_k (Z.of_nat (length (acc ++ [r]))))
        as [Hk | Hk].
      * exists [idx], rest, [r].
        split; [reflexivity|]. split; [reflexivity|].
        split; [now repeat constructor|].
        split; [now repeat constructor|].
        split.
        -- right. rewrite length_app. simpl. lia.
        -- right; right. split; [discriminate | exact Hk].
      * destruct (IH (acc ++ [r]))
          as (pre & suf & new & -> & Hrun & Hres & Hmin & Hbound & Hstop).
        exists (idx :: pre), suf, (r :: new).
        rewrite Hrun, <- app_assoc. simpl.
        split; [reflexivity|]. split; [reflexivity|].
        split; [now constructor|].
        split; [now constructor|].
        rewrite <- app_assoc in Hbound, Hstop. simpl in Hbound, Hstop.
        split.
        -- right. rewrite length_app in Hk. simpl in Hk.
           destruct Hbound as [-> | Hbound].
           ++ rewrite length_app. simpl. lia.
           ++ rewrite !length_app in *.
              simpl in *. clear - Hk Hbound. lia.
        -- destruct Hstop as [Hs | [Hs | [_ Hs]]];
             [now left | now right; left |].
           right; right. split; [discriminate | exact Hs].
Qed.

(** ** Search in an indexed state *)

Section Search.

Context {E : Externals} {L : ExternalsLaws E}.

Lemma argsort_in_range (a : list Q) :
  Forall (fun i => (i < length a)%nat) (argsort a).
Proof.
  apply Forall_forall. intros i Hi.
  apply (Permutation_in _ (argsort_perm a)) in Hi.
  apply in_seq in Hi. lia.
Qed.

(** The similarities exist, one per embedding. *)
Lemma query_similarities_ok (query : str) (embs : list vec) :
  exists sims,
    query_similarities query embs = Ok sims
    /\ length sims = length embs.
Proof.
  unfold query_similarities.
  pose proof (encode_length [query]) as Hq.
  destruct (encode [query]) as [|qe tl] eqn:Henc; [discriminate|].
  simpl.
  pose proof (cosine_rows [qe] embs) as Hrows.
  destruct (cosine_similarity [qe] embs) as [|row rows] eqn:Hcos;
    [discriminate|].
  exists row. simpl. split; [reflexivity|].
  assert (Hin : In row (cosine_similarity [qe] embs))
    by (rewrite Hcos; now left).
  now apply (cosine_cols [qe] embs).
Qed.

(** The similarities are float32 values when the library's are. *)
Lemma query_similarities_float32 {S : Float32Scores E} (query : str)
    (embs : list vec) (sims : list Q) :
  query_similarities query embs = Ok sims ->
  Forall (fun s => (Float32.round s == s)%Q) sims.
Proof.
  unfold query_similarities, getitem. simpl.
  destruct (encode [query]) as [|qe tl]; [discriminate|].
  destruct (cosine_similarity [qe] embs) as [|row rows] eqn:Hcos;
    [discriminate|].
  intros [= <-]. apply Forall_forall. intros s Hs.
  apply (cosine_float32 [qe] embs row); [rewrite Hcos; now left | exact Hs].
Qed.

(** What [search] does after a successful [index_document]. *)
Lemma search_indexed (content : Content) (chunk_size overlap : Z)
    (st0 st : RAGEngine) (query : str) (top_k : Z) (min_similarity : Q) :
  index_document content chunk_size overlap st0 = (true, st) ->
  exists sims pre suf rs,
    chunk_similarities query st = Ok sims
    /\ length sims = length (chunks st)
    /\ rev (argsort sims) = pre ++ suf
    /\ search query top_k min_similarity st = (Ok rs, st)
    /\ Forall2 (result_at sims (chunks st)) rs pre
    /\ Forall (fun i => (Float32.round min_similarity <= at_index sims i)%Q)
         pre
    /\ Z.of_nat (length rs) <= Z.max top_k 1
    /\ (suf = []
        \/ (exists i suf', suf = i :: suf'
                           /\ (at_index sims i
                               < Float32.round min_similarity)%Q)
        \/ (rs <> [] /\ top_k <= Z.of_nat (length rs))).
Proof.
  intros Hidx.
  apply index_document_true in Hidx as (_ & Hne & Hemb).
  destruct (query_similarities_ok query (encode (map text (chunks st))))
    as (sims & Hsims & Hlen).
  rewrite encode_length, length_map in Hlen.
  assert (Hvalid : Forall (fun i => (i < length sims)%nat)
                     (rev (argsort sims)))
    by (apply Forall_rev, argsort_in_range).
  destruct (@search_loop_spec sims (chunks st) top_k min_similarity _
              (eq_sym Hlen) Hvalid [])
    as (pre & suf & rs & Hsplit & Hrun & Hres & Hmin & Hbound & Hstop).
  exists sims, pre, suf, rs.
  unfold chunk_similarities, search. rewrite Hemb, Hsims.
  destruct (chunks st) as [|c cs] eqn:Hcs; [contradiction|].
  rewrite Hrun. simpl in *.
  repeat (split; [assumption || reflexivity|]).
  split; [|exact Hstop].
  destruct Hbound as [-> | Hbound]; simpl in *; lia.
Qed.

End Search.

(** ** Results and similarities *)

Lemma result_at_forall (P : Q -> Prop) (sims : list Q) (cs : list Chunk)
    (rs : list SearchResult) (idxs : list nat) :
  Forall2 (result_at sims cs) rs idxs ->
  Forall (fun i => P (at_index sims i)) idxs ->
  Forall (fun r => P (relevance r)) rs.
Proof.
  induction 1 as [|r i rs idxs (c & _ & ->) _ IH]; intros Hall;
    [constructor|].
  apply Forall_inv in Hall as Hi. apply Forall_inv_tail in Hall.
  constructor; [exact Hi | now apply IH].
Qed.

Lemma result_at_in (sims : list Q) (cs : list Chunk) (r : SearchResult)
    (i : nat) :
  length sims = length cs ->
  result_at sims cs r i -> In (relevance r) sims.
Proof.
  intros Hlen (c & Hc & ->). simpl. unfold at_index.
  apply nth_In. rewrite Hlen.
  apply nth_error_Some. congruence.
Qed.

Lemma results_in (sims : list Q) (cs : list Chunk)
    (rs : list SearchResult) (idxs : list nat) :
  length sims = length cs ->
  Forall2 (result_at sims cs) rs idxs ->
  Forall (fun r => In (relevance r) sims) rs.
Proof.
  intros Hlen. induction 1 as [|r i rs idxs Hr _ IH]; constructor;
    [now apply (result_at_in Hlen Hr) | exact IH].
Qed.

Section Ranking.

Context {E : Externals} {L : ExternalsLaws E}.

(** The first index [search] visits holds a largest similarity. *)
Lemma top_index_max (sims : list Q) (i : nat) (rest : list nat) :
  rev (argsort sims) = i :: rest ->
  Forall (fun s => (s <= at_index sims i)%Q) sims.
Proof.
  intros Hrev.
  assert (Hsort : argsort sims = rev rest ++ [i]).
  { rewrite <- (rev_involutive (argsort sims)), Hrev. reflexivity. }
  pose proof (argsort_sorted sims) as Hs.
  rewrite Hsort, map_app in Hs.
  apply StronglySorted_app_inv in Hs as [_ Hcross].
  apply Forall_forall. intros s Hs.
  destruct (In_nth _ _ 0%Q Hs) as (j & Hj & <-).
  fold (at_index sims j).
  assert (Hin : In j (argsort sims)).
  { apply (Permutation_in _ (Permutation_sym (argsort_perm sims))).
    apply in_seq. lia. }
  rewrite Hsort in Hin. apply in_app_or in Hin as [Hin | [<- | []]].
  - apply Hcross; [now apply in_map | now left].
  - apply Qle_refl.
Qed.

(** The similarities of the indices [search] visits never increase. *)
Lemma top_indices_sorted (sims : list Q) :
  StronglySorted (fun a b => (b <= a)%Q)
    (map (at_index sims) (rev (argsort sims))).
Proof.
  rewrite map_rev. apply StronglySorted_rev, argsort_sorted.
Qed.

End Ranking.

(** [search] leaves the engine as it found it. *)
Lemma search_state {E : Externals} (query : str) (top_k : Z)
    (min_similarity : Q) (st : RAGEngine) :
  snd (search query top_k min_similarity st) = st.
Proof.
  unfold search.
  destruct (chunk_embeddings st); [|reflexivity].
  destruct (chunks st); [reflexivity|].
  destruct (query_similarities query l); reflexivity.
Qed.

(** ** The test double meets the contracts *)

Module StubLaws.
Import Stub.

Lemma insert_index_perm (a : list Q) (i : nat) (l : list nat) :
  Permutation (insert_index a i l) (i :: l).
Proof.
  induction l as [|j l IH]; simpl; [reflexivity|].
  destruct (Qle_bool (at_index a i) (at_index a j)); [reflexivity|].
  rewrite IH. apply perm_swap.
Qed.

Lemma insertion_perm (a : list Q) (l : list nat) :
  Permutation (fold_right (insert_index a) [] l) l.
Proof.
  induction l as [|i l IH]; simpl; [reflexivity|].
  rewrite insert_index_perm. now constructor.
Qed.

Lemma Qle_bool_false (x y : Q) : Qle_bool x y = false -> (y <= x)%Q.
Proof.
  intros H. apply Qlt_le_weak, Qnot_le_lt.
  intros Hle. apply Qle_bool_iff in Hle. congruence.
Qed.

Lemma insert_index_sorted (a : list Q) (i : nat) (l : list nat) :
  Sorted Qle (map (at_index a) l) ->
  Sorted Qle (map (at_index a) (insert_index a i l)).
Proof.
  induction l as [|j l IH]; simpl; intros H.
  - repeat constructor.
  - destruct (Qle_bool (at_index a i) (at_index a j)) eqn:Hij; simpl.
    + constructor; [exact H|]. constructor. now apply Qle_bool_iff.
    + apply Sorted_inv in H as [Hs Hhd].
      constructor; [now apply IH|].
      apply Qle_bool_false in Hij.
      destruct l as [|k l]; simpl.
      * now constructor.
      * destruct (Qle_bool (at_index a i) (at_index a k)); simpl.
        -- now constructor.
        -- constructor. now apply HdRel_inv in Hhd.
Qed.

Lemma insertion_sorted (a : list Q) (l : list nat) :
  Sorted Qle (map (at_index a) (fold_right (insert_index a) [] l)).
Proof.
  induction l as [|i l IH]; simpl; [constructor|].
  now apply insert_index_sorted.
Qed.

(** The similarities of the test double, -1, 0 and 1, are float32
    values. *)
Lemma sign_product_float32 (x y : Z) :
  (Float32.round (inject_Z (Z.sgn x * Z.sgn y))
   == inject_Z (Z.sgn x * Z.sgn y))%Q.
Proof.
  destruct x, y; reflexivity.
Qed.

Lemma laws : ExternalsLaws externals.
Proof.
  constructor; simpl.
  - intros texts. apply length_map.
  - intros X Y. unfold cosine. apply length_map.
  - intros X Y row Hrow. unfold cosine in Hrow.
    apply in_map_iff in Hrow as (x & <- & _). apply length_map.
  - intros a. apply insertion_perm.
  - intros a. apply Sorted_StronglySorted; [exact Qle_trans|].
    apply insertion_sorted.
Qed.

Lemma scores : Float32Scores externals.
Proof.
  constructor; simpl.
  intros X Y row s Hrow Hs. unfold cosine in Hrow.
  apply in_map_iff in Hrow as (x & <- & _).
  apply in_map_iff in Hs as (y & <- & _).
  apply sign_product_float32.
Qed.

End StubLaws.

(** ** The second test double meets the contracts *)

Module CircleLaws.
Import Circle.


(** Its similarities are float32 values: they are results of the
    rounding. *)
Lemma circle_scores : Float32Scores externals.
Proof.
  constructor; simpl.
  intros X Y row s Hrow Hs. unfold cosine in Hrow.
  apply in_map_iff in Hrow as (x & <- & _).
  apply in_map_iff in Hs as (y & <- & _).
  apply Float32Facts.round_idem.
Qed.

End CircleLaws.

(** * The claims *)

Section SearchClaims.

Context {E : Externals} {L : ExternalsLaws E}.


(** C2, as amended.  After a successful [index_document], the results of
    [search] are in order of non-increasing relevance.  Results of equal
    relevance come in the order the reversed argsort visits them: the engine
    has no rule of its own for ties. *)
Theorem search_sorted_by_relevance (content : Content)
    (chunk_size overlap : Z) (st0 st : RAGEngine) (query : str) (top_k : Z)
    (min_similarity : Q) :
  index_document content chunk_size overlap st0 = (true, st) ->
  exists rs,
    search query top_k min_similarity st = (Ok rs, st)
    /\ StronglySorted (fun a b => (relevance b <= relevance a)%Q) rs.
Proof.
  intros Hidx.
  destruct (@search_indexed E L _ _ _ _ _ query top_k min_similarity Hidx)
    as (sims & pre & suf & rs & _ & _ & Hsplit & Hrun & Hres & _).
  exists rs. split; [exact Hrun|].
  apply StronglySorted_map with (R := fun x y => (y <= x)%Q).
  rewrite (result_at_relevance Hres).
  pose proof (top_indices_sorted sims) as Hs.
  rewrite Hsplit, map_app in Hs.
  now apply StronglySorted_app_inv in Hs as [Hs _].
Qed.


(** C9.  After a successful [index_document], if some chunk's similarity to
    the query is at least [min_similarity], then [search] with [top_k = 0]
    returns exactly one result: the bound is only tested after a result has
    been appended.  (The similarities are float32 values, so rounding
    [min_similarity] to float32 does not carry it past one of them.) *)
Theorem search_top_k_zero_returns_one {S : Float32Scores E}
    (content : Content) (chunk_size overlap : Z) (st0 st : RAGEngine)
    (query : str) (min_similarity : Q) (sims : list Q) :
  index_document content chunk_size overlap st0 = (true, st) ->
  chunk_similarities query st = Ok sims ->
  Exists (fun s => (min_similarity <= s)%Q) sims ->
  exists r, search query 0 min_similarity st = (Ok [r], st).
Proof.
  intros Hidx Hsims Hex.
  assert (Hf32 : Forall (fun s => (Float32.round s == s)%Q) sims).
  { pose proof Hidx as Hemb.
    apply index_document_true in Hemb as (_ & _ & Hemb).
    unfold chunk_similarities in Hsims. rewrite Hemb in Hsims.
    exact (query_similarities_float32 _ _ Hsims). }
  destruct (@search_indexed E L _ _ _ _ _ query 0 min_similarity Hidx)
    as (sims' & pre & suf & rs & Hsims' & _ & Hsplit & Hrun & Hres & _
        & Hbound & Hstop).
  rewrite Hsims in Hsims'. injection Hsims' as <-.
  destruct rs as [|r [|r' rs]].
  - exfalso. inversion Hres; subst. simpl in Hsplit.
    apply Exists_exists in Hex as (s & Hs & Hge).
    assert (Hge' : (Float32.round min_similarity <= s)%Q).
    { rewrite Forall_forall in Hf32. rewrite <- (Hf32 s Hs).
      exact (Float32Facts.round_mono Hge). }
    destruct Hstop as [-> | [(i & suf' & -> & Hlow) | [Hne _]]].
    + assert (Hnil : argsort sims = [])
        by (rewrite <- (rev_involutive (argsort sims)), Hsplit; reflexivity).
      pose proof (argsort_perm sims) as Hp. rewrite Hnil in Hp.
      apply Permutation_nil in Hp.
      destruct sims; [contradiction | discriminate].
    + pose proof (top_index_max _ Hsplit) as Hmax.
      rewrite Forall_forall in Hmax. apply Hmax in Hs.
      apply (Qlt_not_le _ _ Hlow). now apply Qle_trans with s.
    + now apply Hne.
  - now exists r.
  - simpl in Hbound. lia.
Qed.

End SearchClaims.

(** C10.  After an [index_document] call that returns [False], every
    [search] returns the empty list, whatever was indexed before. *)
Theorem search_after_failed_index {E : Externals} (content : Content)
    (chunk_size overlap : Z) (st0 st : RAGEngine) (query : str) (top_k : Z)
    (min_similarity : Q) :
  index_document content chunk_size overlap st0 = (false, st) ->
  search query top_k min_similarity st = (Ok [], st).
Proof.
  intros Hidx. apply index_document_false in Hidx as [Hnil _].
  unfold search. rewrite Hnil.
  destruct (chunk_embeddings st); reflexivity.
Qed.

(** ** Chunking claims *)

Section ChunkClaims.

Context {E : Externals}.

(** C4, as amended.  After a successful [index_document], every chunk's text
    is its sentence buffer joined by single spaces, and its [word_count] is
    at most [chunk_size] unless the buffer is a single sentence, or is the
    overlap tail of the chunk before it followed by exactly one sentence:
    the pending sentence is appended to the tail without a second test of
    the budget, and nothing is added to a buffer that is over budget. *)
Theorem chunks_within_budget (content : Content) (chunk_size overlap : Z)
    (st0 st : RAGEngine) :
  index_document content chunk_size overlap st0 = (true, st) ->
  all_within_budget chunk_size overlap None (chunks st)
    (chunk_buffers chunk_size overlap
       (sent_tokenize (get_full_text content))).
Proof.
  intros Hidx. apply index_document_true in Hidx as (-> & _).
  apply chunk_sentences_within_budget.
Qed.

(** C5: the code departs from the claim.  Once a document has been indexed,
    an [index_document] call with empty text returns [False] and empties the
    chunk list, but the embeddings of the previous document stay, and
    [get_document_summary] reports [indexed = True] with no chunks. *)
Theorem reindex_empty_keeps_indexed (content empty : Content)
    (chunk_size overlap chunk_size' overlap' : Z) (st0 st : RAGEngine) :
  index_document content chunk_size overlap st0 = (true, st) ->
  get_full_text empty = [] ->
  exists st',
    index_document empty chunk_size' overlap' st = (false, st')
    /\ fst (get_document_summary st')
       = {| chunks_count := 0; total_words := 0; indexed := true |}.
Proof.
  intros Hidx Hempty.
  apply index_document_true in Hidx as (_ & _ & Hemb).
  eexists. split.
  - unfold index_document. rewrite Hempty. simpl. reflexivity.
  - unfold get_document_summary. simpl. rewrite Hemb. reflexivity.
Qed.

(** C6.  The positions of the chunks [index_document] leaves are
    0, 1, 2, ... in output order. *)
Theorem positions_dense (content : Content) (chunk_size overlap : Z)
    (st0 : RAGEngine) :
  let st := snd (index_document content chunk_size overlap st0) in
  map position (chunks st) = seq 0 (length (chunks st)).
Proof.
  intros st.
  destruct (index_document_chunks content chunk_size overlap st0)
    as [H | H]; fold st in H; rewrite H.
  - reflexivity.
  - apply chunk_sentences_dense.
Qed.

(** On a fresh engine the empty document is rejected and nothing is
    reported as indexed. *)
Lemma index_empty_fresh (empty : Content) (chunk_size overlap : Z) :
  get_full_text empty = [] ->
  index_document empty chunk_size overlap init = (false, init)
  /\ indexed (fst (get_document_summary init)) = false.
Proof.
  intros H. unfold index_document. rewrite H. split; reflexivity.
Qed.

End ChunkClaims.

(** ** Concrete runs *)

Module Runs.
Import Stub Examples.

(** C3: the code departs from the claim.  With [overlap = 5] the claim
    seeds the next buffer with the last [5 // 10 = 0] sentences, none; the
    slice [current_chunk[-0:]] is the whole buffer, so every closed chunk is
    carried over into the next one. *)
Theorem overlap_below_ten_carries_buffer :
  let sentences := sent_tokenize (get_full_text three_sentences) in
  sentences = [s_alpha; s_delta; s_eta]
  /\ last_sentences (Z.to_nat (5 / 10)) [s_alpha; s_delta] = []
  /\ overlap_sentences 5 [s_alpha; s_delta] = [s_alpha; s_delta]
  /\ chunk_buffers 4 5 sentences
     = [[s_alpha]; [s_alpha; s_delta]; [s_alpha; s_delta; s_eta]]
  /\ map text (chunk_sentences 4 5 sentences)
     = [join [s_alpha]; join [s_alpha; s_delta];
        join [s_alpha; s_delta; s_eta]].
Proof.
  vm_compute. repeat split.
Qed.


(** C2 fails as stated: three chunks tie at relevance 1 and come back in
    descending position. *)
Lemma search_ties_descending_position :
  index_document three_sentences 4 0 init = (true, indexed_engine)
  /\ exists a b c,
       search (lit "Beta") 3 (3 # 10) indexed_engine
       = (Ok [a; b; c], indexed_engine)
       /\ (relevance a == relevance b)%Q
       /\ (r_position b < r_position a)%nat.
Proof.
  split; [reflexivity|].
  do 3 eexists. split; [vm_compute; reflexivity|].
  split; [reflexivity | simpl; lia].
Qed.

(** C4 fails as stated: with [chunk_size = 4] and [overlap = 10] the second
    chunk holds two sentences and six words. *)
Lemma overlap_chunk_exceeds_budget :
  exists st c buf,
    index_document three_sentences 4 10 init = (true, st)
    /\ nth_error (chunks st) 1 = Some c
    /\ nth_error
         (chunk_buffers 4 10 (sent_tokenize (get_full_text three_sentences)))
         1 = Some buf
    /\ text c = join buf
    /\ length buf = 2%nat
    /\ ~ (Z.of_nat (word_count c) <= 4).
Proof.
  do 3 eexists.
  split; [vm_compute; reflexivity|].
  split; [reflexivity|].
  split; [vm_compute; reflexivity|].
  split; [reflexivity|].
  split; [reflexivity|].
  vm_compute. intros H. apply H. reflexivity.
Qed.


(** *** The theorems at concrete inputs *)


Lemma search_sorted_by_relevance_witness :
  index_document three_sentences 4 0 init = (true, indexed_engine)
  /\ exists rs,
       search (lit "Beta") 3 (3 # 10) indexed_engine
       = (Ok rs, indexed_engine)
       /\ StronglySorted (fun a b => (relevance b <= relevance a)%Q) rs.
Proof.
  split; [reflexivity|].
  apply (@search_sorted_by_relevance externals StubLaws.laws
           three_sentences 4 0 init indexed_engine (lit "Beta") 3 (3 # 10)).
  reflexivity.
Defined.


Lemma search_top_k_zero_returns_one_witness :
  index_document three_sentences 4 0 init = (true, indexed_engine)
  /\ chunk_similarities (lit "Beta") indexed_engine = Ok [1; 1; 1]%Q
  /\ Exists (fun s => (3 # 10 <= s)%Q) [1; 1; 1]%Q
  /\ exists r,
       search (lit "Beta") 0 (3 # 10) indexed_engine
       = (Ok [r], indexed_engine).
Proof.
  assert (H : Exists (fun s => (3 # 10 <= s)%Q) [1; 1; 1]%Q)
    by (apply Exists_cons_hd; unfold Qle; simpl; lia).
  split; [reflexivity|]. split; [reflexivity|]. split; [exact H|].
  apply (@search_top_k_zero_returns_one externals StubLaws.laws
           StubLaws.scores
           three_sentences 4 0 init indexed_engine (lit "Beta") (3 # 10)
           [1; 1; 1]%Q); [reflexivity | reflexivity | exact H].
Defined.

Lemma search_after_failed_index_witness :
  index_document empty_document 400 50 indexed_engine = (false, failed_engine)
  /\ search (lit "Beta") 3 (3 # 10) failed_engine = (Ok [], failed_engine).
Proof.
  split; [reflexivity|].
  apply (@search_after_failed_index externals empty_document 400 50
           indexed_engine failed_engine (lit "Beta") 3 (3 # 10)).
  reflexivity.
Defined.

Lemma chunks_within_budget_witness :
  index_document three_sentences 4 10 init = (true, overlap_engine)
  /\ all_within_budget 4 10 None (chunks overlap_engine)
       (chunk_buffers 4 10 (sent_tokenize (get_full_text three_sentences))).
Proof.
  split; [reflexivity|].
  apply (@chunks_within_budget externals three_sentences 4 10 init
           overlap_engine).
  reflexivity.
Defined.

Lemma reindex_empty_keeps_indexed_witness :
  index_document three_sentences 4 0 init = (true, indexed_engine)
  /\ get_full_text empty_document = []
  /\ exists st',
       index_document empty_document 400 50 indexed_engine = (false, st')
       /\ fst (get_document_summary st')
          = {| chunks_count := 0; total_words := 0; indexed := true |}.
Proof.
  split; [reflexivity|]. split; [reflexivity|].
  apply (@reindex_empty_keeps_indexed externals three_sentences
           empty_document 4 0 400 50 init indexed_engine);
    reflexivity.
Defined.

End Runs.
(** * Further properties *)

(** ** More on the chunking loop *)

Lemma fold_left_prefix_invariant (A B : Type) (P : list B -> A -> Prop)
    (f : A -> B -> A) (l : list B) (a : A) :
  P [] a ->
  (forall done a b, P done a -> P (done ++ [b]) (f a b)) ->
  P l (fold_left f l a).
Proof.
  intros Ha Hstep.
  assert (H : forall l done a, P done a -> P (done ++ l) (fold_left f l a)).
  { clear l a Ha. induction l as [|b l IH]; intros done a Ha; simpl.
    - now rewrite app_nil_r.
    - replace (done ++ b :: l) with ((done ++ [b]) ++ l)
        by (rewrite <- app_assoc; reflexivity).
      apply IH, Hstep, Ha. }
  apply (H l [] a Ha).
Qed.

(** One turn of the loop either closes the buffer and restarts from its
    overlap tail, or keeps the buffer; the sentence is appended in both
    cases. *)
Lemma buffers_body_cases (chunk_size overlap : Z)
    (g : loop_state * list (list str)) (sentence : str) :
  let g' := buffers_body chunk_size overlap g sentence in
  (current_chunk (fst g) <> []
   /\ snd g' = snd g ++ [current_chunk (fst g)]
   /\ self_chunks (fst g')
      = self_chunks (fst g)
          ++ [make_chunk (self_chunks (fst g)) (current_chunk (fst g))]
   /\ current_chunk (fst g')
      = overlap_sentences overlap (current_chunk (fst g)) ++ [sentence])
  \/ (snd g' = snd g
      /\ self_chunks (fst g') = self_chunks (fst g)
      /\ current_chunk (fst g') = current_chunk (fst g) ++ [sentence]).
Proof.
  unfold buffers_body, loop_body. simpl.
  destruct (must_close chunk_size (fst g) sentence) eqn:Hclose; simpl.
  - left. split; [now apply (must_close_inv _ _ _ Hclose)|]. repeat split.
  - right. repeat split.
Qed.

(** The overlap tail is a final part of the buffer. *)
Lemma overlap_sentences_suffix (overlap : Z) (buf : list str) :
  exists front, buf = front ++ overlap_sentences overlap buf.
Proof.
  unfold overlap_sentences. destruct (0 <? overlap).
  - unfold slice_from.
    match goal with |- context [skipn ?n buf] =>
      exists (firstn n buf); now rewrite firstn_skipn end.
  - exists buf. now rewrite app_nil_r.
Qed.

Lemma overlap_sentences_in (overlap : Z) (buf : list str) (s : str) :
  In s (overlap_sentences overlap buf) -> In s buf.
Proof.
  destruct (overlap_sentences_suffix overlap buf) as [front H].
  intros Hin. rewrite H. apply in_or_app. now right.
Qed.

(** The buffers behind the chunks: what [chunk_buffers] returns from the
    last loop state. *)
Lemma chunk_buffers_final (chunk_size overlap : Z) (sentences : list str)
    (P : list (list str) -> Prop) :
  let g := fold_left (buffers_body chunk_size overlap) sentences
             (loop_start, []) in
  (current_chunk (fst g) = [] -> P (snd g)) ->
  (current_chunk (fst g) <> [] -> P (snd g ++ [current_chunk (fst g)])) ->
  P (chunk_buffers chunk_size overlap sentences).
Proof.
  intros g Hnil Hcons. unfold chunk_buffers. fold g.
  destruct (current_chunk (fst g)) eqn:Hcur.
  - now apply Hnil.
  - apply Hcons. discriminate.
Qed.

(** With no overlap the buffers cut the sentence sequence into consecutive
    pieces. *)
Lemma chunk_buffers_partition (chunk_size overlap : Z)
    (sentences : list str) :
  overlap <= 0 ->
  concat (chunk_buffers chunk_size overlap sentences) = sentences.
Proof.
  intros Hov.
  pose proof (fold_left_prefix_invariant
    (fun done g => concat (snd g) ++ current_chunk (fst g) = done)
    (buffers_body chunk_size overlap) sentences (loop_start, [])) as Hinv.
  cbv beta in Hinv.
  assert (H : concat
                (snd (fold_left (buffers_body chunk_size overlap) sentences
                        (loop_start, [])))
              ++ current_chunk
                   (fst (fold_left (buffers_body chunk_size overlap)
                           sentences (loop_start, [])))
              = sentences).
  { apply Hinv; [reflexivity|].
    intros done g s Hg. cbv beta.
    destruct (buffers_body_cases chunk_size overlap g s)
      as [(_ & -> & _ & ->) | (-> & _ & ->)].
    - rewrite overlap_sentences_none by exact Hov.
      rewrite concat_app. simpl. rewrite app_nil_r, Hg. reflexivity.
    - rewrite app_assoc, Hg. reflexivity. }
  apply chunk_buffers_final.
  - intros Hnil. rewrite Hnil, app_nil_r in H. exact H.
  - intros _. rewrite concat_app. simpl. rewrite app_nil_r. exact H.
Qed.

(** Whatever the overlap, the sentences found in the buffers are those of
    the sequence. *)
Lemma chunk_buffers_cover (chunk_size overlap : Z) (sentences : list str)
    (s : str) :
  In s sentences
  <-> In s (concat (chunk_buffers chunk_size overlap sentences)).
Proof.
  pose proof (fold_left_prefix_invariant
    (fun done g =>
       In s done <-> In s (concat (snd g) ++ current_chunk (fst g)))
    (buffers_body chunk_size overlap) sentences (loop_start, [])) as Hinv.
  cbv beta in Hinv.
  assert (H : In s sentences
              <-> In s (concat
                          (snd (fold_left (buffers_body chunk_size overlap)
                                  sentences (loop_start, [])))
                        ++ current_chunk
                             (fst (fold_left
                                     (buffers_body chunk_size overlap)
                                     sentences (loop_start, []))))).
  { apply Hinv; [reflexivity|].
    intros done g x Hg. cbv beta.
    destruct (buffers_body_cases chunk_size overlap g x)
      as [(_ & -> & _ & ->) | (-> & _ & ->)].
    - rewrite concat_app. simpl. rewrite app_nil_r.
      rewrite !in_app_iff in *. simpl.
      split.
      + intros [Hd | [<- | []]]; [|now right; right; left].
        apply Hg in Hd. left. exact Hd.
      + intros [[Hb | Hc] | [Ht | [<- | []]]].
        * left. apply Hg. now left.
        * left. apply Hg. now right.
        * left. apply Hg. right. now apply overlap_sentences_in in Ht.
        * right. now left.
    - rewrite !in_app_iff in *. simpl. tauto. }
  apply chunk_buffers_final.
  - intros Hnil. rewrite Hnil, app_nil_r in H. exact H.
  - intros _. rewrite concat_app. simpl. rewrite app_nil_r. exact H.
Qed.

(** Every chunk is built from a buffer that holds at least one sentence, and
    counts the words of that buffer's sentences. *)
Lemma chunk_sentences_buffers (chunk_size overlap : Z)
    (sentences : list str) :
  Forall2 (fun c buf => buf <> [] /\ text c = join buf
                        /\ word_count c = sum_words buf)
    (chunk_sentences chunk_size overlap sentences)
    (chunk_buffers chunk_size overlap sentences).
Proof.
  set (Q := fun (c : Chunk) (buf : list str) =>
              buf <> [] /\ text c = join buf /\ word_count c = sum_words buf).
  assert (Hmk : forall cs buf, buf <> [] -> Q (make_chunk cs buf) buf).
  { intros cs buf Hne. split; [exact Hne|]. split; [reflexivity|].
    simpl. apply split_join_length. }
  unfold chunk_sentences, chunk_buffers.
  pose proof (fst_fold_buffers chunk_size overlap sentences (loop_start, []))
    as Hfst.
  simpl in Hfst. rewrite <- Hfst.
  set (g := fold_left _ _ _).
  assert (Hinv : Forall2 Q (self_chunks (fst g)) (snd g)).
  { apply (fold_left_invariant
             (fun g => Forall2 Q (self_chunks (fst g)) (snd g))).
    - constructor.
    - intros g0 s Hg0.
      destruct (buffers_body_cases chunk_size overlap g0 s)
        as [(Hne & -> & -> & _) | (-> & -> & _)]; [|exact Hg0].
      apply Forall2_app; [exact Hg0|].
      constructor; [now apply Hmk | constructor]. }
  destruct (current_chunk (fst g)) eqn:Hcur; [exact Hinv|].
  apply Forall2_app; [exact Hinv|].
  constructor; [apply Hmk; discriminate | constructor].
Qed.

(** The loop leaves a non-empty buffer as soon as it has read a sentence. *)
Lemma loop_body_buffer (chunk_size overlap : Z) (st : loop_state)
    (sentence : str) :
  current_chunk (loop_body chunk_size overlap st sentence) <> [].
Proof.
  unfold loop_body. simpl. intros H. now apply app_eq_nil in H as [_ H].
Qed.

Lemma chunk_sentences_nil (chunk_size overlap : Z) (sentences : list str) :
  chunk_sentences chunk_size overlap sentences = [] <-> sentences = [].
Proof.
  split.
  - intros H. destruct sentences as [|s l] using rev_ind; [reflexivity|].
    exfalso. unfold chunk_sentences in H.
    rewrite fold_left_app in H. cbn [fold_left] in H.
    pose proof (loop_body_buffer chunk_size overlap
                  (fold_left (loop_body chunk_size overlap) l loop_start) s)
      as Hne.
    set (st := loop_body _ _ _ _) in *.
    destruct (current_chunk st); [now apply Hne|].
    now apply app_eq_nil in H as [_ H].
  - intros ->. reflexivity.
Qed.

(** There are never more chunks than sentences. *)
Lemma chunk_sentences_count (chunk_size overlap : Z)
    (sentences : list str) :
  (length (chunk_sentences chunk_size overlap sentences)
   <= length sentences)%nat.
Proof.
  pose proof (fold_left_prefix_invariant
    (fun done st =>
       (length (self_chunks st)
        + match current_chunk st with [] => 0 | _ :: _ => 1 end
        <= length done)%nat)
    (loop_body chunk_size overlap) sentences loop_start) as Hinv.
  cbv beta in Hinv.
  unfold chunk_sentences.
  set (st := fold_left _ _ _) in *.
  assert (H : (length (self_chunks st)
               + match current_chunk st with [] => 0 | _ :: _ => 1 end
               <= length sentences)%nat).
  { apply Hinv; [simpl; lia|].
    intros done st0 s Hst0.
    pose proof (loop_body_buffer chunk_size overlap st0 s) as Hne.
    destruct (current_chunk (loop_body chunk_size overlap st0 s)) eqn:Hcur;
      [contradiction|].
    rewrite length_app. simpl.
    unfold loop_body.
    destruct (must_close chunk_size st0 s) eqn:Hclose; simpl.
    - apply must_close_inv in Hclose.
      destruct (current_chunk st0); [contradiction|].
      rewrite length_app. simpl. simpl in Hst0. lia.
    - destruct (current_chunk st0); simpl in Hst0; lia. }
  destruct (current_chunk st); [lia|].
  rewrite length_app. simpl. lia.
Qed.

(** When the whole sequence fits the budget the loop never closes. *)
Lemma fold_loop_fits (chunk_size overlap : Z) (sentences : list str) :
  forall st,
  self_chunks st = [] ->
  current_length st = sum_words (current_chunk st) ->
  Z.of_nat (sum_words (current_chunk st) + sum_words sentences) <= chunk_size ->
  let st' := fold_left (loop_body chunk_size overlap) sentences st in
  self_chunks st' = [] /\ current_chunk st' = current_chunk st ++ sentences.
Proof.
  induction sentences as [|s l IH]; intros st Hcs Hlen Hfit; simpl.
  - now rewrite app_nil_r.
  - simpl in Hfit.
    assert (Hclose : must_close chunk_size st s = false).
    { unfold must_close. apply andb_false_iff. left.
      apply Z.ltb_ge. rewrite Hlen. lia. }
    assert (Hstep : loop_body chunk_size overlap st s
                    = {| self_chunks := self_chunks st;
                         current_chunk := current_chunk st ++ [s];
                         current_length :=
                           (current_length st + length (split s))%nat |})
      by (unfold loop_body; rewrite Hclose; reflexivity).
    rewrite Hstep.
    destruct (IH {| self_chunks := self_chunks st;
                    current_chunk := current_chunk st ++ [s];
                    current_length :=
                      (current_length st + length (split s))%nat |})
      as [H1 H2]; simpl.
    + exact Hcs.
    + rewrite sum_words_app, Hlen. simpl. lia.
    + rewrite sum_words_app. simpl. lia.
    + split; [exact H1|]. rewrite H2. simpl.
      rewrite <- app_assoc. reflexivity.
Qed.

Lemma chunk_sentences_fits (chunk_size overlap : Z) (sentences : list str) :
  sentences <> [] ->
  Z.of_nat (sum_words sentences) <= chunk_size ->
  chunk_sentences chunk_size overlap sentences
  = [{| text := join sentences; position := 0;
        word_count := sum_words sentences |}].
Proof.
  intros Hne Hfit.
  destruct (@fold_loop_fits chunk_size overlap sentences loop_start)
    as [H1 H2]; try reflexivity; [simpl; lia|].
  unfold chunk_sentences. rewrite H1, H2.
  change (current_chunk loop_start ++ sentences) with sentences.
  destruct sentences as [|s l]; [contradiction|].
  cbn [app]. unfold make_chunk. rewrite split_join_length. reflexivity.
Qed.

(** ** Consecutive buffers *)

Section Adjacent.

Variable A : Type.
Variable R : A -> A -> Prop.

Lemma adjacent_snoc (l : list A) (a b : A) :
  adjacent R (l ++ [a]) -> R a b -> adjacent R (l ++ [a; b]).
Proof.
  induction l as [|x l IH]; simpl; intros H Hab.
  - split; [exact Hab | exact I].
  - destruct l as [|y l]; simpl in *.
    + destruct H as [Hxa _]. repeat split; assumption.
    + destruct H as [Hxy H]. split; [exact Hxy | now apply IH].
Qed.

Lemma adjacent_last (l : list A) (a a' : A) :
  adjacent R (l ++ [a]) -> (forall x, R x a -> R x a') ->
  adjacent R (l ++ [a']).
Proof.
  induction l as [|x l IH]; simpl; intros H Himp; [exact I|].
  destruct l as [|y l]; simpl in *.
  - destruct H as [Hxa _]. split; [now apply Himp | exact I].
  - destruct H as [Hxy H]. split; [exact Hxy | now apply IH].
Qed.

Lemma adjacent_app_l (l1 l2 : list A) :
  adjacent R (l1 ++ l2) -> adjacent R l1.
Proof.
  induction l1 as [|x l1 IH]; simpl; intros H; [exact I|].
  destruct l1 as [|y l1]; simpl in *; [exact I|].
  destruct H as [Hxy H]. split; [exact Hxy | now apply IH].
Qed.

Lemma adjacent_nth (l : list A) : forall (i : nat) (a b : A),
  adjacent R l ->
  nth_error l i = Some a -> nth_error l (S i) = Some b -> R a b.
Proof.
  induction l as [|x l IH]; intros i a b H Ha Hb;
    [destruct i; discriminate|].
  destruct l as [|y l]; [destruct i; discriminate|].
  destruct H as [Hxy H].
  destruct i as [|i]; simpl in Ha, Hb.
  - injection Ha as <-. injection Hb as <-. exact Hxy.
  - now apply (IH i).
Qed.

End Adjacent.

(** Each buffer after the first starts with the overlap tail of the one
    before and adds at least one sentence. *)
Lemma chunk_buffers_follow (chunk_size overlap : Z) (sentences : list str) :
  adjacent (follows overlap) (chunk_buffers chunk_size overlap sentences).
Proof.
  set (g := fold_left (buffers_body chunk_size overlap) sentences
              (loop_start, [])).
  assert (H : adjacent (follows overlap) (snd g ++ [current_chunk (fst g)])).
  { apply (fold_left_invariant
             (fun g => adjacent (follows overlap)
                         (snd g ++ [current_chunk (fst g)]))).
    - exact I.
    - intros g0 s Hg0.
      destruct (buffers_body_cases chunk_size overlap g0 s)
        as [(_ & -> & _ & ->) | (-> & _ & ->)].
      + rewrite <- app_assoc. apply adjacent_snoc; [exact Hg0|].
        exists [s]. split; [discriminate | reflexivity].
      + apply adjacent_last with (a := current_chunk (fst g0));
          [exact Hg0|].
        intros x (fresh & Hne & ->). exists (fresh ++ [s]). split.
        * intros Hnil. now apply app_eq_nil in Hnil as [_ Hnil].
        * now rewrite app_assoc. }
  apply chunk_buffers_final; fold g; intros _; [|exact H].
  now apply adjacent_app_l in H.
Qed.

(** ** More on ranking *)





Lemma dense_nth (cs : list Chunk) (i : nat) (c : Chunk) :
  dense cs -> nth_error cs i = Some c -> position c = i.
Proof.
  unfold dense. intros Hd Hc.
  pose proof (map_nth_error position _ _ Hc) as Hp.
  rewrite Hd, nth_error_seq in Hp.
  destruct (Nat.ltb i (length cs)); [|discriminate].
  now injection Hp as <-.
Qed.

Lemma result_positions (sims : list Q) (cs : list Chunk)
    (rs : list SearchResult) (idxs : list nat) :
  dense cs ->
  Forall2 (result_at sims cs) rs idxs -> map r_position rs = idxs.
Proof.
  intros Hd. induction 1 as [|r i rs idxs (c & Hc & ->) _ IH]; simpl;
    [reflexivity|].
  now rewrite IH, (@dense_nth cs i c Hd Hc).
Qed.

Section MoreRanking.

Context {E : Externals} {L : ExternalsLaws E}.

Lemma top_indices_perm (sims : list Q) :
  Permutation (rev (argsort sims)) (seq 0 (length sims)).
Proof.
  rewrite <- Permutation_rev. apply argsort_perm.
Qed.

Lemma top_indices_nodup (sims : list Q) : NoDup (rev (argsort sims)).
Proof.
  apply (Permutation_NoDup (Permutation_sym (top_indices_perm sims))).
  apply seq_NoDup.
Qed.


(** After a successful [index_document] the chunks are dense. *)
Lemma indexed_dense (content : Content) (chunk_size overlap : Z)
    (st0 st : RAGEngine) :
  index_document content chunk_size overlap st0 = (true, st) ->
  dense (chunks st).
Proof.
  intros H. apply index_document_true in H as (-> & _).
  apply chunk_sentences_dense.
Qed.

(** The states a program can reach: either no chunk is held, or the state
    is the one a successful [index_document] left. *)
Lemma reachable_cases (st : RAGEngine) :
  reachable st ->
  chunks st = []
  \/ exists content chunk_size overlap st0,
       index_document content chunk_size overlap st0 = (true, st).
Proof.
  induction 1 as [|content chunk_size overlap st Hst IH
                  |query top_k min_similarity st Hst IH
                  |fmt query top_k st Hst IH
                  |st Hst IH].
  - now left.
  - destruct (index_document content chunk_size overlap st) as [b st']
      eqn:Hidx.
    destruct b; simpl.
    + right. now exists content, chunk_size, overlap, st.
    + left. now apply index_document_false in Hidx as [H _].
  - now rewrite search_state.
  - unfold generate_context.
    pose proof (search_state query top_k (3 # 10) st) as Hs.
    destruct (search query top_k (3 # 10) st) as [[[|r rs]|e] st'];
      simpl in *; now subst.
  - exact IH.
Qed.

End MoreRanking.

(** ** Context assembly *)

Lemma strip_trim (c d : N) (mid : str) :
  isspace c = false -> isspace d = false ->
  strip ((32%N :: c :: mid) ++ [d; 10; 10]%N) = c :: mid ++ [d].
Proof.
  intros Hc Hd. unfold strip.
  change (lstrip ((32%N :: c :: mid) ++ [d; 10; 10]%N))
    with (lstrip ((c :: mid) ++ [d; 10; 10]%N)).
  cbn [app lstrip]. rewrite Hc.
  change (c :: mid ++ [d; 10; 10]%N) with ((c :: mid) ++ [d; 10; 10]%N).
  rewrite rev_app_distr. cbn [rev app lstrip].
  change (isspace 10) with true. cbv iota. rewrite Hd.
  change (d :: rev mid ++ [c]) with ([d] ++ rev (c :: mid)).
  rewrite rev_app_distr, rev_involutive. reflexivity.
Qed.

Section AssemblyFacts.

Context {E : Externals}.
Variable format_percent : Q -> str.

(** After at least one block the text ends with the rule and a blank
    line. *)
Lemma render_blocks_end (results : list SearchResult) :
  results <> [] ->
  forall (i : nat) (context : str),
  exists front,
    render_blocks format_percent i results context
    = context ++ front ++ rule ++ [10; 10]%N.
Proof.
  induction results as [|res rest IH]; intros Hne i context;
    [contradiction|].
  cbn [render_blocks].
  destruct rest as [|res' rest].
  - cbn [render_blocks]. unfold render_block.
    exists ((label_fragment ++ str_of_nat i ++ label_relevance
               ++ format_percent (relevance res) ++ [41; 58; 10]%N)
            ++ (r_text res ++ [10]%N)
            ++ (label_position ++ str_of_nat (r_position res) ++ label_words
                  ++ str_of_nat (r_word_count res) ++ [93; 10]%N)).
    now rewrite <- !app_assoc.
  - destruct (IH ltac:(discriminate) (S i)
                (context ++ render_block format_percent i res))
      as [front Hfront].
    rewrite Hfront. exists (render_block format_percent i res ++ front).
    now rewrite <- !app_assoc.
Qed.

(** What [generate_context] returns when [search] has results: the text
    built by the loop without its leading blank and its final blank line. *)
Lemma generate_context_results (query : str) (top_k : Z) (st : RAGEngine)
    (r : SearchResult) (rs : list SearchResult) :
  search query top_k (3 # 10) st = (Ok (r :: rs), st) ->
  exists ctx mid,
    generate_context format_percent query top_k st = (Ok ctx, st)
    /\ ctx = tl header ++ mid ++ rule
    /\ 32%N :: ctx ++ [10; 10]%N
       = render_blocks format_percent 1 (r :: rs) header.
Proof.
  intros Hsearch. unfold generate_context. rewrite Hsearch.
  destruct (render_blocks_end (results := r :: rs) ltac:(discriminate)
              1%nat header) as [front Hfront].
  set (mid := skipn 2 header ++ front ++ repeat 45%N 49).
  assert (Hshape : render_blocks format_percent 1 (r :: rs) header
                   = (32%N :: 1060%N :: mid) ++ [45; 10; 10]%N).
  { rewrite Hfront. unfold mid, rule.
    change (repeat 45%N 50) with (repeat 45%N 49 ++ [45%N]).
    change header with (32%N :: 1060%N :: skipn 2 header) at 1.
    cbn [app]. rewrite <- !app_assoc. reflexivity. }
  exists (1060%N :: mid ++ [45%N]), (front).
  rewrite Hshape, strip_trim by reflexivity.
  split; [reflexivity|]. split.
  - unfold mid, rule.
    change (repeat 45%N 50) with (repeat 45%N 49 ++ [45%N]).
    change (tl header) with (1060%N :: skipn 2 header).
    cbn [app]. rewrite <- !app_assoc. reflexivity.
  - cbn [app]. rewrite <- app_assoc. reflexivity.
Qed.

End AssemblyFacts.

Lemma sum_words_concat (bufs : list (list str)) :
  sum_words (concat bufs)
  = fold_right (fun buf acc => (sum_words buf + acc)%nat) 0%nat bufs.
Proof.
  induction bufs as [|b bufs IH]; simpl; [reflexivity|].
  now rewrite sum_words_app, IH.
Qed.

Lemma word_counts_sum (cs : list Chunk) (bufs : list (list str)) :
  Forall2 (fun c buf => buf <> [] /\ text c = join buf
                        /\ word_count c = sum_words buf) cs bufs ->
  fold_right (fun c acc => (word_count c + acc)%nat) 0%nat cs
  = fold_right (fun buf acc => (sum_words buf + acc)%nat) 0%nat bufs.
Proof.
  induction 1 as [|c buf cs bufs (_ & _ & Hc) _ IH]; simpl; [reflexivity|].
  now rewrite Hc, IH.
Qed.

(** ** Indexing, further *)

Section IndexingFacts.

Context {E : Externals}.

(** X1.  [index_document] returns [True] exactly when the text is not empty,
    keeps at least ten characters once stripped, and the tokenizer finds a
    sentence in it.  [chunk_size] and [overlap] are never a reason to
    refuse: neither is validated. *)
Theorem index_document_accepts (content : Content) (chunk_size overlap : Z)
    (st0 : RAGEngine) :
  fst (index_document content chunk_size overlap st0) = true
  <-> get_full_text content <> []
      /\ (10 <= length (strip (get_full_text content)))%nat
      /\ sent_tokenize (get_full_text content) <> [].
Proof.
  unfold index_document, too_short.
  destruct (get_full_text content) as [|c t] eqn:Ht.
  - simpl. split; [discriminate | intros [H _]; now contradiction H].
  - destruct (Nat.ltb_spec (length (strip (c :: t))) 10) as [Hs | Hs].
    + simpl. split; [discriminate | intros (_ & H & _); lia].
    + destruct (chunk_sentences chunk_size overlap (sent_tokenize (c :: t)))
        as [|ch chs] eqn:Hcs; simpl.
      * apply chunk_sentences_nil in Hcs.
        split; [discriminate | intros (_ & _ & H); contradiction].
      * split; [|reflexivity]. intros _.
        split; [discriminate|]. split; [exact Hs|].
        intros Hnil. rewrite Hnil in Hcs. discriminate.
Qed.

(** X2.  After a successful [index_document], every chunk comes from a
    buffer of at least one sentence; its text is the sentences joined by
    single blanks and its [word_count] is the sum of the sentences' word
    counts. *)
Theorem chunks_hold_sentences (content : Content) (chunk_size overlap : Z)
    (st0 st : RAGEngine) :
  index_document content chunk_size overlap st0 = (true, st) ->
  Forall2 (fun c buf => buf <> [] /\ text c = join buf
                        /\ word_count c = sum_words buf)
    (chunks st)
    (chunk_buffers chunk_size overlap
       (sent_tokenize (get_full_text content))).
Proof.
  intros Hidx. apply index_document_true in Hidx as (-> & _).
  apply chunk_sentences_buffers.
Qed.

(** X3.  With [overlap <= 0] the chunks cut the document into consecutive
    runs of sentences: the buffers, put end to end, are the tokenizer's
    sentences, and the [total_words] of the summary is the number of words
    of the document's sentences. *)
Theorem no_overlap_partition (content : Content) (chunk_size overlap : Z)
    (st0 st : RAGEngine) :
  index_document content chunk_size overlap st0 = (true, st) ->
  overlap <= 0 ->
  let sentences := sent_tokenize (get_full_text content) in
  concat (chunk_buffers chunk_size overlap sentences) = sentences
  /\ total_words (fst (get_document_summary st)) = sum_words sentences.
Proof.
  intros Hidx Hov sentences.
  pose proof (chunk_buffers_partition chunk_size sentences Hov) as Hpart.
  split; [exact Hpart|].
  pose proof (chunks_hold_sentences _ _ _ _ Hidx) as Hall.
  fold sentences in Hall.
  transitivity
    (sum_words (concat (chunk_buffers chunk_size overlap sentences)));
    [|now rewrite Hpart].
  rewrite sum_words_concat.
  unfold get_document_summary. cbn [fst total_words].
  rewrite <- (word_counts_sum Hall). now destruct (chunks st).
Qed.

(** X4.  Whatever the overlap, no sentence is lost and none is invented:
    a sentence belongs to some chunk's buffer exactly when the tokenizer
    returned it. *)
Theorem every_sentence_chunked (content : Content) (chunk_size overlap : Z)
    (s : str) :
  let sentences := sent_tokenize (get_full_text content) in
  In s sentences
  <-> exists buf, In buf (chunk_buffers chunk_size overlap sentences)
                  /\ In s buf.
Proof.
  intros sentences.
  rewrite (chunk_buffers_cover chunk_size overlap sentences s).
  apply in_concat.
Qed.

(** X5.  After a successful [index_document] the summary reports
    [indexed = True] and a [chunks_count] between one and the number of
    sentences. *)
Theorem summary_after_indexing (content : Content) (chunk_size overlap : Z)
    (st0 st : RAGEngine) :
  index_document content chunk_size overlap st0 = (true, st) ->
  let summary := fst (get_document_summary st) in
  indexed summary = true
  /\ (1 <= chunks_count summary
      <= length (sent_tokenize (get_full_text content)))%nat.
Proof.
  intros Hidx summary.
  apply index_document_true in Hidx as (Hcs & Hne & Hemb).
  unfold summary, get_document_summary. cbn [fst indexed chunks_count].
  rewrite Hemb. split; [reflexivity|]. split.
  - destruct (chunks st); [contradiction | simpl; lia].
  - rewrite Hcs. apply chunk_sentences_count.
Qed.

(** X6.  A document whose sentences fit the budget together becomes one
    chunk at position 0 that holds the whole text, whatever the overlap;
    the engine then holds that chunk, its embedding and the document's
    metadata. *)
Theorem small_document_single_chunk (content : Content)
    (chunk_size overlap : Z) (st0 : RAGEngine) :
  let sentences := sent_tokenize (get_full_text content) in
  too_short (get_full_text content) = false ->
  sentences <> [] ->
  Z.of_nat (sum_words sentences) <= chunk_size ->
  index_document content chunk_size overlap st0
  = (true,
     {| chunks := [{| text := join sentences; position := 0;
                      word_count := sum_words sentences |}];
        chunk_embeddings := Some (encode [join sentences]);
        metadata := get_metadata content |}).
Proof.
  intros sentences Hlong Hne Hfit.
  unfold index_document. rewrite Hlong. fold sentences.
  rewrite (chunk_sentences_fits overlap Hne Hfit). reflexivity.
Qed.

(** X7.  Every chunk after the first starts with the overlap tail of the
    chunk before it and goes on with at least one new sentence.  The tail
    is the last [overlap // 10] sentences when [overlap >= 10] and nothing
    when [overlap <= 0]. *)
Theorem consecutive_chunks_overlap (content : Content)
    (chunk_size overlap : Z) (i : nat) (prev next : list str) :
  let buffers := chunk_buffers chunk_size overlap
                   (sent_tokenize (get_full_text content)) in
  nth_error buffers i = Some prev ->
  nth_error buffers (S i) = Some next ->
  (exists fresh, fresh <> []
                 /\ next = overlap_sentences overlap prev ++ fresh)
  /\ (10 <= overlap ->
      overlap_sentences overlap prev
      = last_sentences (Z.to_nat (overlap / 10)) prev)
  /\ (overlap <= 0 -> overlap_sentences overlap prev = []).
Proof.
  intros buffers Hprev Hnext. split; [|split].
  - apply (@adjacent_nth _ (follows overlap) buffers i);
      [apply chunk_buffers_follow | exact Hprev | exact Hnext].
  - apply overlap_sentences_tens.
  - apply overlap_sentences_none.
Qed.

(** X8.  A successful [index_document] replaces the index wholesale: the
    state it leaves depends on the document and the parameters only, not on
    the state before. *)
Theorem index_replaces_wholesale (content : Content) (chunk_size overlap : Z)
    (st1 st2 st : RAGEngine) :
  index_document content chunk_size overlap st1 = (true, st) ->
  index_document content chunk_size overlap st2 = (true, st).
Proof.
  unfold index_document.
  destruct (too_short (get_full_text content)); [discriminate|].
  destruct (chunk_sentences _ _ _); [discriminate|].
  intros [= <-]. reflexivity.
Qed.

End IndexingFacts.

(** ** Searching, further *)


Lemma result_at_source (sims : list Q) (cs : list Chunk)
    (rs : list SearchResult) (idxs : list nat) (r : SearchResult) :
  Forall2 (result_at sims cs) rs idxs -> In r rs ->
  exists i, In i idxs /\ result_at sims cs r i.
Proof.
  induction 1 as [|r' i rs idxs Hr _ IH]; intros Hin; [destruct Hin|].
  destruct Hin as [<- | Hin].
  - exists i. split; [now left | exact Hr].
  - destruct (IH Hin) as (j & Hj & Hrj). exists j. split; [now right|].
    exact Hrj.
Qed.

Section SearchFacts.

Context {E : Externals} {L : ExternalsLaws E}.

(** X9.  In every state a program can reach from a fresh engine, whatever
    the calls and their outcomes, the engine holds no chunk or exactly one
    embedding per chunk, and [search] returns a list: it never raises on an
    index. *)
Theorem search_never_raises (st : RAGEngine) :
  reachable st ->
  (chunks st = []
   \/ exists embs, chunk_embeddings st = Some embs
                   /\ length embs = length (chunks st))
  /\ forall query top_k min_similarity,
       exists rs, search query top_k min_similarity st = (Ok rs, st).
Proof.
  intros Hreach.
  destruct (reachable_cases Hreach)
    as [Hnil | (content & chunk_size & overlap & st0 & Hidx)].
  - split; [now left|]. intros query top_k min_similarity.
    exists []. unfold search. rewrite Hnil.
    now destruct (chunk_embeddings st).
  - split.
    + right. apply index_document_true in Hidx as (_ & _ & Hemb).
      eexists. split; [exact Hemb|].
      now rewrite encode_length, length_map.
    + intros query top_k min_similarity.
      destruct (@search_indexed E L _ _ _ _ _ query top_k min_similarity
                  Hidx)
        as (sims & pre & suf & rs & _ & _ & _ & Hrun & _).
      now exists rs.
Qed.

(** X10.  After a successful [index_document], every result of [search] is
    the copy of the chunk found at the result's position (same text,
    position and word count), and no chunk is returned twice. *)
Theorem results_are_chunks (content : Content) (chunk_size overlap : Z)
    (st0 st : RAGEngine) (query : str) (top_k : Z) (min_similarity : Q) :
  index_document content chunk_size overlap st0 = (true, st) ->
  exists rs,
    search query top_k min_similarity st = (Ok rs, st)
    /\ NoDup (map r_position rs)
    /\ Forall (fun r => exists c,
                 nth_error (chunks st) (r_position r) = Some c
                 /\ r = result_of (relevance r) c) rs.
Proof.
  intros Hidx.
  pose proof (indexed_dense _ _ _ _ Hidx) as Hdense.
  destruct (@search_indexed E L _ _ _ _ _ query top_k min_similarity Hidx)
    as (sims & pre & suf & rs & _ & _ & Hsplit & Hrun & Hres & _).
  exists rs. split; [exact Hrun|]. split.
  - rewrite (result_positions Hdense Hres).
    pose proof (top_indices_nodup sims) as Hnd. rewrite Hsplit in Hnd.
    now apply NoDup_app_remove_r in Hnd.
  - apply Forall_forall. intros r Hr.
    destruct (@result_at_source _ _ _ _ r Hres Hr) as (i & _ & c & Hc & ->).
    exists c. simpl. now rewrite (@dense_nth _ i c Hdense Hc).
Qed.

(** X11.  After a successful [index_document], [search] returns the best
    chunks: a chunk that is not among the results has a similarity no
    greater than the relevance of any result. *)
Theorem search_returns_best (content : Content) (chunk_size overlap : Z)
    (st0 st : RAGEngine) (query : str) (top_k : Z) (min_similarity : Q)
    (sims : list Q) (rs : list SearchResult) (r : SearchResult) (i : nat) :
  index_document content chunk_size overlap st0 = (true, st) ->
  chunk_similarities query st = Ok sims ->
  search query top_k min_similarity st = (Ok rs, st) ->
  In r rs ->
  (i < length (chunks st))%nat ->
  ~ In i (map r_position rs) ->
  (at_index sims i <= relevance r)%Q.
Proof.
  intros Hidx Hsims Hsearch Hr Hi Hout.
  pose proof (indexed_dense _ _ _ _ Hidx) as Hdense.
  destruct (@search_indexed E L _ _ _ _ _ query top_k min_similarity Hidx)
    as (sims' & pre & suf & rs' & Hsims' & Hlen & Hsplit & Hrun & Hres
        & _).
  rewrite Hsims in Hsims'. injection Hsims' as <-.
  rewrite Hsearch in Hrun. injection Hrun as <-.
  rewrite (result_positions Hdense Hres) in Hout.
  destruct (@result_at_source _ _ _ _ r Hres Hr) as (j & Hj & c & _ & ->). simpl.
  assert (Hsuf : In i suf).
  { assert (Hin : In i (rev (argsort sims))).
    { apply (Permutation_in _ (Permutation_sym (top_indices_perm sims))).
      apply in_seq. lia. }
    rewrite Hsplit in Hin. apply in_app_or in Hin as [Hin | Hin];
      [contradiction | exact Hin]. }
  pose proof (top_indices_sorted sims) as Hs.
  rewrite Hsplit, map_app in Hs.
  apply StronglySorted_app_inv in Hs as [_ Hcross].
  apply Hcross; now apply in_map.
Qed.


End SearchFacts.

(** ** Context assembly, further *)

Section ContextFacts.

Context {E : Externals}.
Variable format_percent : Q -> str.

Lemma render_blocks_concat (results : list SearchResult) :
  forall (i : nat) (context : str),
  render_blocks format_percent i results context
  = context
    ++ concat (map (fun p => render_block format_percent (fst p) (snd p))
                 (combine (seq i (length results)) results)).
Proof.
  induction results as [|res rest IH]; intros i context; simpl.
  - now rewrite app_nil_r.
  - rewrite IH, <- app_assoc. reflexivity.
Qed.

(** X13.  [generate_context] returns the empty string exactly when [search]
    (with the default floor 0.3) returns no result; as soon as there is a
    result the context is not empty. *)
Theorem generate_context_empty_iff (query : str) (top_k : Z)
    (st : RAGEngine) :
  fst (generate_context format_percent query top_k st) = Ok []
  <-> fst (search query top_k (3 # 10) st) = Ok [].
Proof.
  pose proof (search_state query top_k (3 # 10) st) as Hst.
  destruct (search query top_k (3 # 10) st) as [[[|r rs]|e] st'] eqn:Hs.
  - unfold generate_context. rewrite Hs. simpl. tauto.
  - simpl in Hst. subst st'.
    destruct (generate_context_results format_percent _ _ Hs)
      as (ctx & mid & Hgen & Hctx & _).
    rewrite Hgen. simpl. rewrite Hctx.
    split; intros H; discriminate.
  - unfold generate_context. rewrite Hs. simpl.
    split; intros H; discriminate.
Qed.

(** X14.  When [search] has results, the context is the title
    [ФРАГМЕНТЫ ДОКУМЕНТА:], then one block per result in the order of the
    results, numbered from 1, and it ends with the rule of 50 dashes: the
    final [strip] removes the blank before the title and the blank line
    after the last rule, nothing else. *)
Theorem generate_context_layout (query : str) (top_k : Z) (st : RAGEngine)
    (r : SearchResult) (rs : list SearchResult) :
  search query top_k (3 # 10) st = (Ok (r :: rs), st) ->
  exists ctx mid,
    generate_context format_percent query top_k st = (Ok ctx, st)
    /\ ctx = tl header ++ mid ++ rule
    /\ 32%N :: ctx ++ [10; 10]%N
       = header
         ++ concat (map (fun p => render_block format_percent (fst p) (snd p))
                      (combine (seq 1 (length (r :: rs))) (r :: rs))).
Proof.
  intros Hs.
  destruct (generate_context_results format_percent _ _ Hs)
    as (ctx & mid & Hgen & Hctx & Hraw).
  exists ctx, mid. split; [exact Hgen|]. split; [exact Hctx|].
  rewrite Hraw. apply render_blocks_concat.
Qed.

End ContextFacts.

Section ContextIndexed.

Context {E : Externals} {L : ExternalsLaws E}.

(** X15.  After a successful [index_document], [generate_context] returns
    the empty string exactly when no chunk's similarity to the query
    reaches 0.3, whatever [top_k] is.  (The similarities are float32
    values, and 0.3 rounds up to float32 with no float32 in between.) *)
Theorem generate_context_empty_when_irrelevant {S : Float32Scores E}
    (format_percent : Q -> str) (content : Content) (chunk_size overlap : Z)
    (st0 st : RAGEngine) (query : str) (top_k : Z) (sims : list Q) :
  index_document content chunk_size overlap st0 = (true, st) ->
  chunk_similarities query st = Ok sims ->
  (generate_context format_percent query top_k st = (Ok [], st)
   <-> Forall (fun s => (s < 3 # 10)%Q) sims).
Proof.
  intros Hidx Hsims.
  destruct (@search_indexed E L _ _ _ _ _ query top_k (3 # 10) Hidx)
    as (sims' & pre & suf & rs & Hsims' & Hlen & Hsplit & Hrun & Hres
        & Hmin & _ & Hstop).
  rewrite Hsims in Hsims'. injection Hsims' as <-.
  assert (Hf32 : Forall (fun s => (Float32.round s == s)%Q) sims).
  { pose proof Hidx as Hemb.
    apply index_document_true in Hemb as (_ & _ & Hemb).
    unfold chunk_similarities in Hsims. rewrite Hemb in Hsims.
    exact (query_similarities_float32 _ _ Hsims). }
  assert (Hempty : rs = [] <-> Forall (fun s => (s < 3 # 10)%Q) sims).
  { split.
    - intros ->. inversion Hres; subst. simpl in Hsplit.
      destruct Hstop as [-> | [(i & suf' & -> & Hlow) | [Hne _]]].
      + assert (Hnil : argsort sims = [])
          by (rewrite <- (rev_involutive (argsort sims)), Hsplit;
              reflexivity).
        pose proof (argsort_perm sims) as Hp. rewrite Hnil in Hp.
        apply Permutation_nil in Hp.
        destruct sims; [constructor | discriminate].
      + pose proof (top_index_max _ Hsplit) as Hmax.
        rewrite Forall_forall in Hmax, Hf32.
        apply Forall_forall. intros s Hs.
        apply Qnot_le_lt. intros Hge.
        apply (Qlt_not_le _ _ Hlow).
        apply Qle_trans with s; [|now apply Hmax].
        rewrite <- (Hf32 s Hs). exact (Float32Facts.round_mono Hge).
      + now contradiction Hne.
    - intros Hlow.
      pose proof (results_in Hlen Hres) as Hin.
      pose proof (result_at_forall
                    (fun s => (Float32.round (3 # 10) <= s)%Q) Hres Hmin)
        as Hge.
      destruct rs as [|r rs]; [reflexivity|].
      apply Forall_inv in Hin. apply Forall_inv in Hge.
      rewrite Forall_forall in Hlow. apply Hlow in Hin.
      exfalso. apply (Qlt_not_le _ _ Hin).
      exact (Qle_trans _ _ _ Float32Facts.round_default_floor Hge). }
  rewrite <- Hempty.
  destruct rs as [|r rs].
  - unfold generate_context. rewrite Hrun. tauto.
  - destruct (generate_context_results format_percent _ _ Hrun)
      as (ctx & mid & Hgen & Hctx & _).
    rewrite Hgen, Hctx. split; intros H; discriminate.
Qed.

End ContextIndexed.

(** ** A budget of zero words or less *)

Lemma fold_left_prefix_invariant_in (A B : Type) (P : list B -> A -> Prop)
    (f : A -> B -> A) (l : list B) (a : A) :
  P [] a ->
  (forall done a b, In b l -> P done a -> P (done ++ [b]) (f a b)) ->
  P l (fold_left f l a).
Proof.
  intros Ha Hstep.
  assert (H : forall l' done a,
             (forall b, In b l' -> In b l) ->
             P done a -> P (done ++ l') (fold_left f l' a)).
  { clear a Ha. induction l' as [|b l' IH]; intros done a Hsub Ha; simpl.
    - now rewrite app_nil_r.
    - replace (done ++ b :: l') with ((done ++ [b]) ++ l')
        by (rewrite <- app_assoc; reflexivity).
      apply IH; [intros x Hx; apply Hsub; now right|].
      apply Hstep; [apply Hsub; now left | exact Ha]. }
  apply (H l [] a); [auto | exact Ha].
Qed.

Section DegenerateBudget.

Context {E : Externals}.

(** X16.  A [chunk_size] of zero or less is not rejected.  With no overlap,
    and sentences that each hold at least one word, every sentence then
    becomes a chunk of its own. *)
Theorem nonpositive_budget_one_sentence_per_chunk (content : Content)
    (chunk_size overlap : Z) (st0 st : RAGEngine) :
  let sentences := sent_tokenize (get_full_text content) in
  index_document content chunk_size overlap st0 = (true, st) ->
  chunk_size <= 0 ->
  overlap <= 0 ->
  Forall (fun s => split s <> []) sentences ->
  chunk_buffers chunk_size overlap sentences = map (fun s => [s]) sentences
  /\ map text (chunks st) = sentences.
Proof.
  intros sentences Hidx Hcs Hov Hwords.
  assert (Hbufs : chunk_buffers chunk_size overlap sentences
                  = map (fun s => [s]) sentences).
  { pose proof (fold_left_prefix_invariant_in
      (fun done g =>
         snd g ++ match current_chunk (fst g) with
                  | [] => []
                  | _ :: _ => [current_chunk (fst g)]
                  end
         = map (fun s => [s]) done
         /\ (length (current_chunk (fst g)) <= 1)%nat)
      (buffers_body chunk_size overlap) sentences (loop_start, [])) as Hinv.
    cbv beta in Hinv.
    set (g := fold_left (buffers_body chunk_size overlap) sentences
                (loop_start, [])) in *.
    assert (H : snd g ++ match current_chunk (fst g) with
                         | [] => []
                         | _ :: _ => [current_chunk (fst g)]
                         end
                = map (fun s => [s]) sentences
                /\ (length (current_chunk (fst g)) <= 1)%nat).
    { apply Hinv; [split; [reflexivity | simpl; lia]|].
      intros done g0 s Hin [Hg0 Hlen]. cbv beta.
      rewrite Forall_forall in Hwords. specialize (Hwords s Hin).
      unfold buffers_body, loop_body. cbn [fst snd].
      destruct (must_close chunk_size (fst g0) s) eqn:Hclose;
        cbn [current_chunk self_chunks].
      - rewrite overlap_sentences_none by exact Hov. cbn [app].
        apply must_close_inv in Hclose.
        destruct (current_chunk (fst g0)) as [|s0 tl0]; [contradiction|].
        rewrite map_app, <- Hg0.
        split; [reflexivity | simpl; lia].
      - apply must_close_not in Hclose as [Hnil | Hfit].
        + rewrite Hnil in *. cbn [app]. rewrite app_nil_r in Hg0.
          rewrite map_app, Hg0. split; [reflexivity | simpl; lia].
        + exfalso. destruct (split s); [contradiction|].
          simpl in Hfit. lia. }
    destruct H as [H _].
    unfold chunk_buffers. fold g.
    destruct (current_chunk (fst g)); [now rewrite app_nil_r in H|exact H]. }
  split; [exact Hbufs|].
  pose proof (chunk_sentences_buffers chunk_size overlap sentences) as Hall.
  apply index_document_true in Hidx as (Hchunks & _).
  fold sentences in Hchunks. rewrite Hchunks.
  rewrite Hbufs in Hall. clear - Hall.
  remember (chunk_sentences chunk_size overlap sentences) as cs eqn:Hcs.
  clear Hcs. revert cs Hall.
  induction sentences as [|s l IH]; intros cs Hall; inversion Hall; subst;
    [reflexivity|].
  simpl. f_equal; [|now apply IH].
  match goal with H : _ /\ text _ = _ /\ _ |- _ =>
    destruct H as (_ & -> & _) end.
  reflexivity.
Qed.

End DegenerateBudget.

(** ** The further theorems at concrete inputs *)

Module MoreRuns.
Import Stub Examples MoreExamples.

Lemma chunks_hold_sentences_witness :
  index_document three_sentences 4 10 init = (true, overlap_engine)
  /\ Forall2 (fun c buf => buf <> [] /\ text c = join buf
                           /\ word_count c = sum_words buf)
       (chunks overlap_engine)
       (chunk_buffers 4 10 (sent_tokenize (get_full_text three_sentences))).
Proof.
  split; [reflexivity|].
  apply (@chunks_hold_sentences externals three_sentences 4 10 init
           overlap_engine).
  reflexivity.
Defined.

Lemma no_overlap_partition_witness :
  index_document mixed_document 4 0 init = (true, mixed_engine)
  /\ 0 <= 0
  /\ concat (chunk_buffers 4 0 (sent_tokenize (get_full_text mixed_document)))
     = sent_tokenize (get_full_text mixed_document)
  /\ total_words (fst (get_document_summary mixed_engine))
     = sum_words (sent_tokenize (get_full_text mixed_document)).
Proof.
  split; [reflexivity|]. split; [lia|].
  apply (@no_overlap_partition externals mixed_document 4 0 init
           mixed_engine); [reflexivity | lia].
Defined.

Lemma summary_after_indexing_witness :
  index_document three_sentences 4 10 init = (true, overlap_engine)
  /\ indexed (fst (get_document_summary overlap_engine)) = true
  /\ (1 <= chunks_count (fst (get_document_summary overlap_engine))
      <= length (sent_tokenize (get_full_text three_sentences)))%nat.
Proof.
  split; [reflexivity|].
  apply (@summary_after_indexing externals three_sentences 4 10 init
           overlap_engine).
  reflexivity.
Defined.

Lemma small_document_single_chunk_witness :
  too_short (get_full_text mixed_document) = false
  /\ sent_tokenize (get_full_text mixed_document) <> []
  /\ Z.of_nat (sum_words (sent_tokenize (get_full_text mixed_document)))
     <= 400
  /\ index_document mixed_document 400 50 init
     = (true,
        {| chunks :=
             [{| text := join (sent_tokenize (get_full_text mixed_document));
                 position := 0;
                 word_count :=
                   sum_words (sent_tokenize (get_full_text mixed_document))
              |}];
           chunk_embeddings :=
             Some (encode
                     [join (sent_tokenize (get_full_text mixed_document))]);
           metadata := get_metadata mixed_document |}).
Proof.
  assert (H1 : too_short (get_full_text mixed_document) = false)
    by reflexivity.
  assert (H2 : sent_tokenize (get_full_text mixed_document) <> [])
    by (vm_compute; discriminate).
  assert (H3 : Z.of_nat
                 (sum_words (sent_tokenize (get_full_text mixed_document)))
               <= 400)
    by (vm_compute; discriminate).
  split; [exact H1|]. split; [exact H2|]. split; [exact H3|].
  apply (@small_document_single_chunk externals mixed_document 400 50 init
           H1 H2 H3).
Defined.

Lemma consecutive_chunks_overlap_witness :
  nth_error
    (chunk_buffers 4 10 (sent_tokenize (get_full_text three_sentences))) 1
  = Some [s_alpha; s_delta]
  /\ nth_error
       (chunk_buffers 4 10 (sent_tokenize (get_full_text three_sentences))) 2
     = Some [s_delta; s_eta]
  /\ (exists fresh,
        fresh <> []
        /\ [s_delta; s_eta]
           = overlap_sentences 10 [s_alpha; s_delta] ++ fresh)
  /\ (10 <= 10 ->
      overlap_sentences 10 [s_alpha; s_delta]
      = last_sentences (Z.to_nat (10 / 10)) [s_alpha; s_delta])
  /\ (10 <= 0 -> overlap_sentences 10 [s_alpha; s_delta] = []).
Proof.
  split; [reflexivity|]. split; [reflexivity|].
  apply (@consecutive_chunks_overlap externals three_sentences 4 10 1
           [s_alpha; s_delta] [s_delta; s_eta]); reflexivity.
Defined.

Lemma index_replaces_wholesale_witness :
  index_document mixed_document 4 0 init = (true, mixed_engine)
  /\ index_document mixed_document 4 0 overlap_engine = (true, mixed_engine).
Proof.
  split; [reflexivity|].
  apply (@index_replaces_wholesale externals mixed_document 4 0 init
           overlap_engine mixed_engine).
  reflexivity.
Defined.

Lemma search_never_raises_witness :
  reachable failed_engine
  /\ (chunks failed_engine = []
      \/ exists embs, chunk_embeddings failed_engine = Some embs
                      /\ length embs = length (chunks failed_engine))
  /\ forall query top_k min_similarity,
       exists rs,
         search query top_k min_similarity failed_engine
         = (Ok rs, failed_engine).
Proof.
  assert (H : reachable failed_engine)
    by (unfold failed_engine, indexed_engine;
        do 2 apply reach_index; apply reach_init).
  split; [exact H|].
  apply (@search_never_raises externals StubLaws.laws failed_engine H).
Defined.

Lemma results_are_chunks_witness :
  index_document mixed_document 4 0 init = (true, mixed_engine)
  /\ exists rs,
       search (lit "Beta") 3 (3 # 10) mixed_engine = (Ok rs, mixed_engine)
       /\ NoDup (map r_position rs)
       /\ Forall (fun r => exists c,
                    nth_error (chunks mixed_engine) (r_position r) = Some c
                    /\ r = result_of (relevance r) c) rs.
Proof.
  split; [reflexivity|].
  apply (@results_are_chunks externals StubLaws.laws mixed_document 4 0 init
           mixed_engine (lit "Beta") 3 (3 # 10)).
  reflexivity.
Defined.

Lemma search_returns_best_witness :
  index_document mixed_document 4 0 init = (true, mixed_engine)
  /\ chunk_similarities (lit "Beta") mixed_engine = Ok mixed_similarities
  /\ search (lit "Beta") 3 (3 # 10) mixed_engine
     = (Ok [result_echo; result_alpha], mixed_engine)
  /\ In result_echo [result_echo; result_alpha]
  /\ (1 < length (chunks mixed_engine))%nat
  /\ ~ In 1%nat (map r_position [result_echo; result_alpha])
  /\ (at_index mixed_similarities 1 <= relevance result_echo)%Q.
Proof.
  assert (H4 : In result_echo [result_echo; result_alpha]) by now left.
  assert (H5 : (1 < length (chunks mixed_engine))%nat)
    by (vm_compute; lia).
  assert (H6 : ~ In 1%nat (map r_position [result_echo; result_alpha]))
    by (simpl; intros [H | [H | []]]; discriminate).
  split; [reflexivity|]. split; [reflexivity|]. split; [reflexivity|].
  split; [exact H4|]. split; [exact H5|]. split; [exact H6|].
  apply (@search_returns_best externals StubLaws.laws mixed_document 4 0
           init mixed_engine (lit "Beta") 3 (3 # 10) mixed_similarities
           [result_echo; result_alpha] result_echo 1);
    [reflexivity | reflexivity | reflexivity | exact H4 | exact H5
     | exact H6].
Defined.


Lemma generate_context_layout_witness :
  search (lit "Beta") 4 (3 # 10) mixed_engine
  = (Ok [result_echo; result_alpha], mixed_engine)
  /\ exists ctx mid,
       generate_context Percent.format (lit "Beta") 4 mixed_engine
       = (Ok ctx, mixed_engine)
       /\ ctx = tl header ++ mid ++ rule
       /\ 32%N :: ctx ++ [10; 10]%N
          = header
            ++ concat
                 (map (fun p => render_block Percent.format (fst p) (snd p))
                    (combine (seq 1 (length [result_echo; result_alpha]))
                       [result_echo; result_alpha])).
Proof.
  split; [reflexivity|].
  apply (@generate_context_layout externals Percent.format (lit "Beta") 4
           mixed_engine result_echo [result_alpha]).
  reflexivity.
Defined.

Lemma generate_context_empty_when_irrelevant_witness :
  index_document mixed_document 4 0 init = (true, mixed_engine)
  /\ chunk_similarities (lit "Mike") mixed_engine = Ok [0; 0; 0]%Q
  /\ (generate_context Percent.format (lit "Mike") 4 mixed_engine
      = (Ok [], mixed_engine)
      <-> Forall (fun s => (s < 3 # 10)%Q) [0; 0; 0]%Q).
Proof.
  split; [reflexivity|]. split; [reflexivity|].
  apply (@generate_context_empty_when_irrelevant externals StubLaws.laws
           StubLaws.scores Percent.format mixed_document 4 0 init mixed_engine (lit "Mike")
           4 [0; 0; 0]%Q); reflexivity.
Defined.

Lemma nonpositive_budget_one_sentence_per_chunk_witness :
  index_document three_sentences 0 0 init = (true, zero_budget_engine)
  /\ 0 <= 0
  /\ Forall (fun s => split s <> [])
       (sent_tokenize (get_full_text three_sentences))
  /\ chunk_buffers 0 0 (sent_tokenize (get_full_text three_sentences))
     = map (fun s => [s]) (sent_tokenize (get_full_text three_sentences))
  /\ map text (chunks zero_budget_engine)
     = sent_tokenize (get_full_text three_sentences).
Proof.
  assert (H : Forall (fun s => split s <> [])
                (sent_tokenize (get_full_text three_sentences)))
    by (vm_compute; repeat constructor; discriminate).
  split; [reflexivity|]. split; [lia|]. split; [exact H|].
  apply (@nonpositive_budget_one_sentence_per_chunk externals
           three_sentences 0 0 init zero_budget_engine);
    [reflexivity | lia | lia | exact H].
Defined.

End MoreRuns.
